(** * peppol_sync: the streaming country splitter of [src/peppol_sync.py]

    A shallow embedding of [PeppolSync.extract_country], [extract_date],
    [extract_entity_name], [element_to_string] and [process_xml], and the
    properties of the routing loop.

    Conventions of the model.
    - A Python [str] is represented by its UTF-8 encoding, a [string] of
      bytes.  Comparison, suffix test, replacement and splitting at the line
      feed are the same on the bytes as on the characters; the operations
      that count or classify characters ([len], slicing, [strip],
      [isalnum], [upper]) go through [Str.chars].  The character classes and
      the case mapping of the Unicode database are the fields of the class
      [Str.Unicode].
    - The platform is POSIX: the line feed is written as it is, and paths
      are joined as [pathlib.PurePosixPath] joins them.
    - The disk is a finite map from path to file content; only regular files
      are modelled: no directories, no links, no permissions, no I/O
      failure.  The bytes written to a handle wait in its buffer; how many of
      them the handle passes on to the disk after a write is the field of
      the class [Buffering], and closing the handle passes on the rest.
    - Every file operation of [process_xml] on an output artifact is also
      appended to an I/O trace, so that properties of the order of operations
      can be stated.  The console and the log file are not modelled.
    - [xml.etree.ElementTree.iterparse] is represented by what it yields: the
      list of elements of the [end] events, each as it is when it is
      yielded, followed by either exhaustion or a parse error.
      [xml.etree.ElementTree.tostring] is a parameter. *)

From Stdlib Require Import ZArith Ascii String DecimalString DecimalNat.
From stdpp Require Import gmap strings list.

#[local] Set Warnings "-register-all".

(** ** Python [str] methods used by the script *)

Module Str.

Definition LF : ascii := "010"%char.
Definition DQ : ascii := "034"%char.

Definition nl : string := String LF "".
Definition dq : string := String DQ "".

(** [bool(s)]: a string is truthy when it is not empty. *)
Definition nonempty (s : string) : bool :=
  match s with EmptyString => false | String _ _ => true end.

(** The first [n] bytes, and the rest. *)
Fixpoint take (n : nat) (s : string) : string :=
  match n, s with
  | S k, String c s' => String c (take k s')
  | _, _ => ""
  end.

Fixpoint drop (n : nat) (s : string) : string :=
  match n, s with
  | S k, String _ s' => drop k s'
  | _, _ => s
  end.

(** [s.startswith(p)] *)
Fixpoint startswith (p s : string) : bool :=
  match p, s with
  | EmptyString, _ => true
  | String a p', String b s' => if Ascii.eqb a b then startswith p' s' else false
  | String _ _, EmptyString => false
  end.

(** [s.endswith(suffix)]: the last bytes of [s] are [suffix]. *)
Definition endswith (s suffix : string) : bool :=
  (String.length suffix <=? String.length s)%nat &&
  String.eqb (drop (String.length s - String.length suffix) s) suffix.

(** [s.replace(old, new)] for a non-empty [old]: one scan from the left,
    matches do not overlap.  [skip] counts the bytes of the current match
    still to be passed over. *)
Fixpoint replace_from (old new : string) (skip : nat) (s : string) : string :=
  match s with
  | EmptyString => ""
  | String c s' =>
      match skip with
      | S k => replace_from old new k s'
      | O =>
          if startswith old s
          then new +:+ replace_from old new (String.length old - 1) s'
          else String c (replace_from old new 0 s')
      end
  end.

Definition replace (old new s : string) : string := replace_from old new 0 s.

(** [s.split('\n')] *)
Fixpoint split_lines (s : string) : list string :=
  match s with
  | EmptyString => [""]
  | String c s' =>
      if Ascii.eqb c LF then "" :: split_lines s'
      else match split_lines s' with
           | l :: ls => String c l :: ls
           | [] => [String c ""]
           end
  end.

(** ["".join(parts)] *)
Definition join (parts : list string) : string :=
  fold_right String.append "" parts.

Definition code (c : ascii) : nat := nat_of_ascii c.

Definition between (lo hi : nat) (c : ascii) : bool :=
  (lo <=? code c)%nat && (code c <=? hi)%nat.

(** A byte [10xxxxxx] continues the character begun before it. *)
Definition continuation (c : ascii) : bool := between 128 191 c.

Definition continues (ch : string) : bool :=
  match ch with String c _ => continuation c | EmptyString => false end.

(** The characters of a string, each with the bytes of its encoding. *)
Fixpoint chars (s : string) : list string :=
  match s with
  | EmptyString => []
  | String c s' =>
      match chars s' with
      | ch :: rest =>
          if continues ch then String c ch :: rest
          else String c "" :: ch :: rest
      | [] => [String c ""]
      end
  end.

(** [len(s)] *)
Definition len (s : string) : nat := length (chars s).

(** [s[:n]] *)
Definition slice_to (n : nat) (s : string) : string :=
  join (firstn n (chars s)).

(** The classes of the characters below 128. *)
Definition ascii_isspace (c : ascii) : bool :=
  between 9 13 c || between 28 32 c.

Definition ascii_isalnum (c : ascii) : bool :=
  between 48 57 c || between 65 90 c || between 97 122 c.

Definition ascii_upper (c : ascii) : ascii :=
  if between 97 122 c then ascii_of_nat (code c - 32) else c.

(** What the script uses of the Unicode database, character by character:
    [c.isspace()], [c.isalnum()] and the full upper-case mapping of [c],
    which may be longer than [c] and is never empty.  Below 128 they are
    the ASCII ones. *)
Class Unicode : Type := {
  isspace : string -> bool;
  isalnum : string -> bool;
  upper : string -> string;
  isspace_ascii (c : ascii) :
    (code c < 128)%nat -> isspace (String c "") = ascii_isspace c;
  isalnum_ascii (c : ascii) :
    (code c < 128)%nat -> isalnum (String c "") = ascii_isalnum c;
  upper_ascii (c : ascii) :
    (code c < 128)%nat -> upper (String c "") = String (ascii_upper c) "";
  upper_nonempty (ch : string) : ch <> "" -> upper ch <> ""
}.

Section WithUnicode.

Context {db : Unicode}.

(** [s.upper()]: [str.upper] maps every character on its own. *)
Definition str_upper (s : string) : string := join (map upper (chars s)).

(** ["".join(filter(pred, s))] *)
Definition str_filter (pred : string -> bool) (s : string) : string :=
  join (List.filter pred (chars s)).

Fixpoint lstrip_chars (l : list string) : list string :=
  match l with
  | [] => []
  | ch :: l' => if isspace ch then lstrip_chars l' else l
  end.

Definition rstrip_chars (l : list string) : list string :=
  rev (lstrip_chars (rev l)).

(** [s.strip()] *)
Definition strip (s : string) : string :=
  join (rstrip_chars (lstrip_chars (chars s))).

End WithUnicode.

Definition zeros (n : nat) : string := join (repeat "0" n).

(** [f"{n:06d}"]: decimal, padded with zeros on the left to six digits. *)
Definition format_06d (n : nat) : string :=
  let digits := NilZero.string_of_uint (Nat.to_uint n) in
  zeros (6 - String.length digits) +:+ digits.

(** One string occurs in another at some position. *)
Fixpoint occurs (t s : string) : bool :=
  startswith t s ||
  match s with
  | EmptyString => false
  | String _ s' => occurs t s'
  end.

(** [sub] is obtained from [s] by deleting bytes. *)
Inductive subseq : string -> string -> Prop :=
  | subseq_nil : subseq "" ""
  | subseq_keep c a b : subseq a b -> subseq (String c a) (String c b)
  | subseq_skip c a b : subseq a b -> subseq a (String c b).

End Str.

(** ** [pathlib.PurePosixPath] *)

Module PurePath.

(** [s.split('/')] *)
Fixpoint split (s : string) : list string :=
  match s with
  | EmptyString => [""]
  | String c s' =>
      if Ascii.eqb c "/" then "" :: split s'
      else match split s' with
           | l :: ls => String c l :: ls
           | [] => [String c ""]
           end
  end.

(** The root of a path string: two slashes exactly are kept, one slash or
    three and more are one. *)
Definition root (s : string) : string :=
  if Str.startswith "/" s then
    if Str.startswith "//" s && negb (Str.startswith "///" s) then "//" else "/"
  else "".

(** The components: empty ones and ["."] are dropped. *)
Definition parts (s : string) : list string :=
  List.filter (fun p => negb (String.eqb p "") && negb (String.eqb p "."))
              (split s).

(** [str(base / s) + "/"], where [base] is relative with the components
    [base_parts]: a rooted [s] replaces the base.  (With a root alone the
    separator is the root itself.) *)
Definition child_prefix (base_parts : list string) (s : string) : string :=
  let all := if Str.nonempty (root s) then parts s else base_parts ++ parts s in
  root s +:+ Str.join (map (fun p => p +:+ "/") all).

End PurePath.

(** ** [xml.etree.ElementTree.Element] *)

Inductive Element : Type :=
  mkElement (tag : string) (attrib : list (string * string))
            (text : option string) (children : list Element)
            (tail : option string).

Definition tag (e : Element) : string :=
  match e with mkElement t _ _ _ _ => t end.
Definition attrib (e : Element) : list (string * string) :=
  match e with mkElement _ a _ _ _ => a end.
Definition text (e : Element) : option string :=
  match e with mkElement _ _ x _ _ => x end.
Definition children (e : Element) : list Element :=
  match e with mkElement _ _ _ cs _ => cs end.
Definition tail (e : Element) : option string :=
  match e with mkElement _ _ _ _ x => x end.

(** [element.iter()]: the element and its descendants in document order. *)
Fixpoint iter (e : Element) : list Element :=
  match e with
  | mkElement _ _ _ cs _ => e :: flat_map iter cs
  end.

Definition descendants (e : Element) : list Element :=
  flat_map iter (children e).

(** [element.find(".//" + t)]: the first proper descendant tagged [t]. *)
Definition find_descendant (t : string) (e : Element) : option Element :=
  List.find (fun x => String.eqb (tag x) t) (descendants e).

(** [element.find(t)]: the first child tagged [t]. *)
Definition find_child (t : string) (e : Element) : option Element :=
  List.find (fun x => String.eqb (tag x) t) (children e).

(** [element.get(key)] *)
Fixpoint assoc (key : string) (l : list (string * string)) : option string :=
  match l with
  | [] => None
  | (k, v) :: l' => if String.eqb k key then Some v else assoc key l'
  end.

Definition get (e : Element) (key : string) : option string :=
  assoc key (attrib e).

(** [a if a is not None else b], for the two-step namespace lookup. *)
Definition or_else {A} (a b : option A) : option A :=
  match a with Some _ => a | None => b end.

(** ** The record extractor *)

Definition NS : string :=
  "http://www.peppol.eu/schema/pd/businesscard-generic/201907/".

Definition qualified (local : string) : string := "{" +:+ NS +:+ "}" +:+ local.

Definition find_entity (element : Element) : option Element :=
  or_else (find_descendant (qualified "entity") element)
          (find_descendant "entity" element).

Definition extract_country (element : Element) : option string :=
  match find_entity element with
  | Some entity => get entity "countrycode"
  | None => None
  end.

Definition extract_date `{db : Str.Unicode} (element : Element) : option string :=
  let regdate := or_else (find_descendant (qualified "regdate") element)
                         (find_descendant "regdate" element) in
  match regdate with
  | Some regdate =>
      match text regdate with
      | Some t =>
          if Str.nonempty t then
            let date_str := Str.strip t in
            if (10 <=? Str.len date_str)%nat
            then Some (Str.slice_to 10 date_str)
            else None
          else None
      | None => None
      end
  | None => None
  end.

Definition extract_entity_name (element : Element) : option string :=
  match find_entity element with
  | Some entity =>
      let name_element := or_else (find_child (qualified "name") entity)
                                  (find_child "name" entity) in
      match name_element with
      | Some name_element => get name_element "name"
      | None => None
      end
  | None => None
  end.

(** The three literals [element_to_string] deletes. *)
Definition XMLNS_NS0 : string :=
  " xmlns:ns0=" +:+ Str.dq +:+ NS +:+ Str.dq.
Definition XMLNS_DEFAULT : string :=
  " xmlns=" +:+ Str.dq +:+ NS +:+ Str.dq.
Definition NS0_PREFIX : string := "ns0:".

(** [xml_str] is the result of [ET.tostring(element, encoding="unicode",
    method="xml")]. *)
Definition strip_namespaces (xml_str : string) : string :=
  let xml_str := Str.replace XMLNS_NS0 "" xml_str in
  let xml_str := Str.replace XMLNS_DEFAULT "" xml_str in
  let xml_str := Str.replace NS0_PREFIX "" xml_str in
  xml_str.

Definition element_to_string (tostring : Element -> string)
    (element : Element) : string :=
  strip_namespaces (tostring element).

(** ** The state of a run *)

Inductive open_mode := ModeW | ModeRPlus.

(** The file operations [process_xml] performs on output artifacts. *)
Inductive io_event :=
  | IoOpen (path : string) (mode : open_mode)
  | IoWrite (path : string) (data : string)
  | IoTruncate (path : string) (size : nat)
  | IoClose (path : string).

(** After a write, the number of bytes that the handle passes on to the
    disk from those it holds, the ones just written included.  It is
    determined by the file operations of the run so far, the write being
    the last of them; which function of them it is depends on the buffer
    sizes of the platform. *)
Class Buffering : Type := {
  flush_count : list io_event -> nat
}.

(** The attributes of [self] that [process_xml] reads or writes, the disk
    with the I/O trace of the current call, and the local variables of
    [process_xml].
    [file_stats] maps a country to the ['sequence'] entry of its dict; a file
    handle is represented by the path it was opened on, and [buffer] holds
    the bytes written to it that are not on the disk yet. *)
Record State := mkState {
  max_bytes : Z;
  file_stats : gmap string nat;
  stats : gmap string nat;
  file_count : nat;
  disk : gmap string string;
  buffer : string;
  io_trace : list io_event;
  processed_cards : nat;
  current_file_handle : option string;
  current_file_path : option string
}.

Definition set_file_stats (v : gmap string nat) (st : State) : State :=
  mkState (max_bytes st) v (stats st) (file_count st) (disk st) (buffer st)
          (io_trace st) (processed_cards st) (current_file_handle st)
          (current_file_path st).
Definition set_stats (v : gmap string nat) (st : State) : State :=
  mkState (max_bytes st) (file_stats st) v (file_count st) (disk st) (buffer st)
          (io_trace st) (processed_cards st) (current_file_handle st)
          (current_file_path st).
Definition set_file_count (v : nat) (st : State) : State :=
  mkState (max_bytes st) (file_stats st) (stats st) v (disk st) (buffer st)
          (io_trace st) (processed_cards st) (current_file_handle st)
          (current_file_path st).
Definition set_disk (v : gmap string string) (st : State) : State :=
  mkState (max_bytes st) (file_stats st) (stats st) (file_count st) v (buffer st)
          (io_trace st) (processed_cards st) (current_file_handle st)
          (current_file_path st).
Definition set_buffer (v : string) (st : State) : State :=
  mkState (max_bytes st) (file_stats st) (stats st) (file_count st) (disk st) v
          (io_trace st) (processed_cards st) (current_file_handle st)
          (current_file_path st).
Definition set_io_trace (v : list io_event) (st : State) : State :=
  mkState (max_bytes st) (file_stats st) (stats st) (file_count st) (disk st)
          (buffer st) v (processed_cards st) (current_file_handle st)
          (current_file_path st).
Definition set_processed_cards (v : nat) (st : State) : State :=
  mkState (max_bytes st) (file_stats st) (stats st) (file_count st) (disk st)
          (buffer st) (io_trace st) v (current_file_handle st)
          (current_file_path st).
Definition set_current_file_handle (v : option string) (st : State) : State :=
  mkState (max_bytes st) (file_stats st) (stats st) (file_count st) (disk st)
          (buffer st) (io_trace st) (processed_cards st) v (current_file_path st).
Definition set_current_file_path (v : option string) (st : State) : State :=
  mkState (max_bytes st) (file_stats st) (stats st) (file_count st) (disk st)
          (buffer st) (io_trace st) (processed_cards st) (current_file_handle st) v.

(** ** A state monad with exceptions *)

Inductive exn := FileNotFoundError | ParseError | ValueError.

Inductive result (A : Type) :=
  | Ok (a : A)
  | Raise (e : exn).
Arguments Ok {A} a.
Arguments Raise {A} e.

Definition M (A : Type) : Type := State -> State * result A.

Definition ret {A} (a : A) : M A := fun st => (st, Ok a).
Definition raise {A} (e : exn) : M A := fun st => (st, Raise e).
Definition bind {A B} (m : M A) (k : A -> M B) : M B :=
  fun st =>
    match m st with
    | (st', Ok a) => k a st'
    | (st', Raise e) => (st', Raise e)
    end.
Definition get_state : M State := fun st => (st, Ok st).
Definition modify (f : State -> State) : M unit := fun st => (f st, Ok tt).

(** [try: body finally: handler]: the handler runs on every exit of the
    body; an exception of the handler replaces the outcome of the body. *)
Definition try_finally {A} (body : M A) (handler : M unit) : M A :=
  fun st =>
    match body st with
    | (st1, r) =>
        match handler st1 with
        | (st2, Ok _) => (st2, r)
        | (st2, Raise e) => (st2, Raise e)
        end
    end.

Declare Scope py_scope.
Delimit Scope py_scope with py.
Notation "x <- m ;; k" := (bind m (fun x => k))
  (at level 100, m at next level, right associativity) : py_scope.
Notation "m ;; k" := (bind m (fun _ => k))
  (at level 100, right associativity) : py_scope.
Local Open Scope py_scope.

Fixpoint for_each {A} (l : list A) (body : A -> M unit) : M unit :=
  match l with
  | [] => ret tt
  | x :: l' => body x ;; for_each l' body
  end.

(** ** File operations *)

Definition content (st : State) (path : string) : string :=
  default "" (disk st !! path).

(** [path.exists()] *)
Definition path_exists (st : State) (path : string) : bool :=
  bool_decide (is_Some (disk st !! path)).

(** [path.stat().st_size]: the bytes on the disk; those still in the buffer
    of a handle do not count. *)
Definition st_size (st : State) (path : string) : Z :=
  Z.of_nat (String.length (content st path)).

Definition emit (ev : io_event) (st : State) : State :=
  set_io_trace (io_trace st ++ [ev]) st.

(** [open(path, "w")]: the file is created, or emptied. *)
Definition fopen_w (path : string) : M unit :=
  modify (fun st =>
    emit (IoOpen path ModeW)
         (set_buffer "" (set_disk (<[path := ""]> (disk st)) st))).

(** [open(path, "r+")] *)
Definition fopen_rplus (path : string) : M unit :=
  modify (fun st => emit (IoOpen path ModeRPlus) (set_buffer "" st)).

(** [handle.write(data)]: the position of every handle of [process_xml] is
    the end of its file when it writes.  The data joins the buffer, and the
    handle passes on the first [flush_count] bytes of the buffer. *)
Definition fwrite `{buf : Buffering} (path data : string) : M unit :=
  modify (fun st =>
    let st := emit (IoWrite path data) st in
    let held := buffer st +:+ data in
    let n := flush_count (io_trace st) in
    set_buffer (Str.drop n held)
      (set_disk (<[path := content st path +:+ Str.take n held]> (disk st)) st)).

(** [handle.seek(position); handle.truncate()]: the buffer is passed on
    first. *)
Definition ftruncate (path : string) (position : nat) : M unit :=
  modify (fun st =>
    emit (IoTruncate path position)
      (set_buffer ""
         (set_disk (<[path := Str.take position (content st path +:+ buffer st)]>
                      (disk st)) st))).

(** [handle.close()]: the buffer is passed on. *)
Definition fclose (path : string) : M unit :=
  modify (fun st =>
    emit (IoClose path)
      (set_buffer ""
         (set_disk (<[path := content st path +:+ buffer st]> (disk st)) st))).

(** ** [PeppolSync.process_xml] *)

Definition CLOSING_TAG : string := "</root>" +:+ Str.nl.

Definition XML_DECLARATION : string :=
  "<?xml version=" +:+ Str.dq +:+ "1.0" +:+ Str.dq +:+
  " encoding=" +:+ Str.dq +:+ "UTF-8" +:+ Str.dq +:+ "?>" +:+ Str.nl.

Definition ROOT_OPEN : string :=
  "<root xmlns=" +:+ Str.dq +:+ NS +:+ Str.dq +:+
  " version=" +:+ Str.dq +:+ "2" +:+ Str.dq +:+ ">" +:+ Str.nl.

(** [str(self.extracts_dir / country) + "/"], with
    [self.extracts_dir = Path("extracts")]. *)
Definition country_dir (country : string) : string :=
  PurePath.child_prefix ["extracts"] country.

(** [self.extracts_dir / country / f"business-cards.{sequence:06d}.xml"] *)
Definition artifact_path (country : string) (sequence : nat) : string :=
  country_dir country +:+ "business-cards." +:+
  Str.format_06d sequence +:+ ".xml".

(** [bool(x)] of an optional string: neither [None] nor empty. *)
Definition truthy (x : option string) : bool :=
  match x with Some s => Str.nonempty s | None => false end.

(** [self.stats[key] += 1] on a [defaultdict(int)] *)
Definition stats_incr (key : string) : M unit :=
  modify (fun st => set_stats (<[key := S (default 0 (stats st !! key))]> (stats st)) st).

(** [self.file_stats.setdefault(country, {'sequence': 1})] *)
Definition setdefault_sequence (country : string) : M nat :=
  fun st =>
    match file_stats st !! country with
    | Some sequence => (st, Ok sequence)
    | None => (set_file_stats (<[country := 1]> (file_stats st)) st, Ok 1)
    end.

(** The rollover test: the candidate exists and its size exceeds the
    configured maximum. *)
Definition oversized (st : State) (path : string) : bool :=
  path_exists st path && (st_size st path >? max_bytes st)%Z.

(** Lines 236-239: at most one increment of the country's sequence. *)
Definition rollover (country : string) (sequence : nat) : M string :=
  st <- get_state ;;
  let output_path := artifact_path country sequence in
  if oversized st output_path then
    modify (fun st => set_file_stats (<[country := S sequence]> (file_stats st)) st) ;;
    ret (artifact_path country (S sequence))
  else ret output_path.

(** Lines 260-264: reopen an existing artifact and cut its last
    [len('</root>\n')] bytes.  [seek] refuses a negative position. *)
Definition reopen_artifact (output_path : string) : M unit :=
  fopen_rplus output_path ;;
  modify (set_current_file_handle (Some output_path)) ;;
  st <- get_state ;;
  let position := (st_size st output_path - Z.of_nat (Str.len CLOSING_TAG))%Z in
  if (position <? 0)%Z then raise ValueError
  else ftruncate output_path (Z.to_nat position).

Section ProcessXml.

Context {db : Str.Unicode} {buf : Buffering}.

(** The bucket built for a record without a date. *)
Definition fallback_date (elem : Element) : string :=
  let entity_name := extract_entity_name elem in
  let safe_name :=
    match entity_name with
    | Some entity_name =>
        if Str.nonempty entity_name then
          let filtered_name := Str.str_filter Str.isalnum entity_name in
          Str.str_upper (Str.slice_to 5 filtered_name)
        else ""
    | None => ""
    end in
  if Str.nonempty safe_name then "2000-" +:+ safe_name else "2000-UNKNOWN".

(** Lines 244-246 and 283-285: close the open artifact, if any. *)
Definition close_current : M unit :=
  st <- get_state ;;
  match current_file_handle st with
  | Some handle => fwrite handle CLOSING_TAG ;; fclose handle
  | None => ret tt
  end.

(** Lines 252-257: a new artifact with its header. *)
Definition create_artifact (output_path : string) : M unit :=
  fopen_w output_path ;;
  modify (set_current_file_handle (Some output_path)) ;;
  fwrite output_path XML_DECLARATION ;;
  fwrite output_path ROOT_OPEN ;;
  modify (fun st => set_file_count (S (file_count st)) st).

(** Lines 242-266: make [output_path] the open artifact. *)
Definition switch_to (output_path : string) : M unit :=
  st <- get_state ;;
  if bool_decide (Some output_path = current_file_path st) then ret tt
  else
    close_current ;;
    st <- get_state ;;
    (if path_exists st output_path
     then reopen_artifact output_path
     else create_artifact output_path) ;;
    modify (set_current_file_path (Some output_path)).

Variable tostring : Element -> string.

(** Lines 269-272: the record, one indented line per non-blank line. *)
Definition write_record (output_path : string) (elem : Element) : M unit :=
  let xml_str := element_to_string tostring elem in
  for_each (Str.split_lines xml_str) (fun line =>
    if Str.nonempty (Str.strip line)
    then fwrite output_path ("  " +:+ line +:+ Str.nl)
    else ret tt).

(** Lines 213-272: the body of [if country:]. *)
Definition route (country : string) (date : option string) (elem : Element) : M unit :=
  stats_incr ("country_" +:+ country) ;;
  let date :=
    if truthy date then default "" date else fallback_date elem in
  stats_incr ("date_" +:+ date) ;;
  sequence <- setdefault_sequence country ;;
  output_path <- rollover country sequence ;;
  switch_to output_path ;;
  write_record output_path elem.

(** Lines 206-279: one [end] event. *)
Definition process_event (elem : Element) : M unit :=
  if Str.endswith (tag elem) "businesscard" then
    modify (fun st => set_processed_cards (S (processed_cards st)) st) ;;
    let country := extract_country elem in
    let date := extract_date elem in
    if truthy country then route (default "" country) date elem
    else ret tt
  else ret tt.

(** What the parser delivers: nothing when the input file is missing;
    otherwise the elements of its [end] events, and whether the document
    was well formed to its end (if not, the iterator raises after the last
    element). *)
Inductive Input :=
  | Missing
  | Document (events : list Element) (well_formed : bool).

Definition stream (events : list Element) (well_formed : bool) : M unit :=
  for_each events process_event ;;
  if well_formed then ret tt else raise ParseError.

(** Entry of [process_xml]: the locals are initialised, and the trace of
    this call starts empty. *)
Definition enter (st : State) : State :=
  set_current_file_path None
    (set_current_file_handle None
       (set_processed_cards 0 (set_buffer "" (set_io_trace [] st)))).

Definition process_xml (input_file : Input) : M nat :=
  match input_file with
  | Missing => raise FileNotFoundError
  | Document events well_formed =>
      modify enter ;;
      try_finally (stream events well_formed) close_current ;;
      st <- get_state ;;
      ret (processed_cards st)
  end.

End ProcessXml.

(** ** Serialisation of elements without namespaces

    [xml.etree.ElementTree.tostring] on an element none of whose tags or
    attribute names is namespace-qualified: no declaration is emitted, and
    an element without text and children is written in the short form. *)

Module ET.

Definition escape_cdata_char (c : ascii) : string :=
  if Ascii.eqb c "&" then "&amp;"
  else if Ascii.eqb c "<" then "&lt;"
  else if Ascii.eqb c ">" then "&gt;"
  else String c "".

Definition escape_attrib_char (c : ascii) : string :=
  if Ascii.eqb c "&" then "&amp;"
  else if Ascii.eqb c "<" then "&lt;"
  else if Ascii.eqb c ">" then "&gt;"
  else if Ascii.eqb c Str.DQ then "&quot;"
  else if Ascii.eqb c "013" then "&#13;"
  else if Ascii.eqb c "010" then "&#10;"
  else if Ascii.eqb c "009" then "&#09;"
  else String c "".

Fixpoint escape (f : ascii -> string) (s : string) : string :=
  match s with
  | EmptyString => ""
  | String c s' => f c +:+ escape f s'
  end.

Definition write_attrib (kv : string * string) : string :=
  " " +:+ kv.1 +:+ "=" +:+ Str.dq +:+ escape escape_attrib_char kv.2 +:+ Str.dq.

Definition cdata (x : option string) : string :=
  match x with Some s => escape escape_cdata_char s | None => "" end.

Fixpoint tostring (e : Element) : string :=
  match e with
  | mkElement tag attrib text children tail =>
      "<" +:+ tag +:+ Str.join (map write_attrib attrib) +:+
      (if truthy text || bool_decide (children <> [])
       then ">" +:+ cdata text +:+ Str.join (map tostring children)
            +:+ "</" +:+ tag +:+ ">"
       else " />") +:+
      cdata tail
  end.

End ET.

(** ** A database and a platform for closed examples

    [Sample.unicode] is the Unicode database on the characters below 128,
    on the letters U+00C9, U+00E9 and U+00DF, whose upper-case mapping is the
    two letters SS, and on the no-break space U+00A0; it takes every other
    character for a symbol.  With [Sample.buffering] nothing is passed on
    before the handle is closed, as on a platform whose buffer is larger than
    the artifacts of the examples. *)

Module Sample.

Definition E_ACUTE : string := String "195" (String "137" "").
Definition e_acute : string := String "195" (String "169" "").
Definition sharp_s : string := String "195" (String "159" "").
Definition NBSP : string := String "194" (String "160" "").

Definition isspace (ch : string) : bool :=
  match ch with
  | String c EmptyString => Str.ascii_isspace c
  | _ => String.eqb ch NBSP
  end.

Definition isalnum (ch : string) : bool :=
  match ch with
  | String c EmptyString => Str.ascii_isalnum c
  | _ => String.eqb ch E_ACUTE || String.eqb ch e_acute || String.eqb ch sharp_s
  end.

Definition upper (ch : string) : string :=
  match ch with
  | String c EmptyString => String (Str.ascii_upper c) ""
  | _ => if String.eqb ch e_acute then E_ACUTE
         else if String.eqb ch sharp_s then "SS"
         else ch
  end.

Lemma upper_nonempty (ch : string) : ch <> "" -> upper ch <> "".
Proof.
  intros Hch. unfold upper. destruct ch as [|c [|c' r]]; [congruence|discriminate|].
  destruct (String.eqb _ e_acute); [discriminate|].
  destruct (String.eqb _ sharp_s); discriminate.
Qed.

#[global] Instance unicode : Str.Unicode := {|
  Str.isspace := isspace;
  Str.isalnum := isalnum;
  Str.upper := upper;
  Str.isspace_ascii _ _ := eq_refl;
  Str.isalnum_ascii _ _ := eq_refl;
  Str.upper_ascii _ _ := eq_refl;
  Str.upper_nonempty := upper_nonempty
|}.

#[global] Instance buffering : Buffering := {| flush_count _ := 0 |}.

(** The platform without a buffer: every write is passed on at once. *)
Definition write_through : Buffering :=
  {| flush_count t :=
       match last t with
       | Some (IoWrite _ data) => String.length data
       | _ => 0
       end |}.

End Sample.

(** * Properties *)

(** ** Strings *)

Module StrFacts.
Import Str.

Lemma app_cons (c : ascii) (a b : string) :
  String c a +:+ b = String c (a +:+ b).
Proof. reflexivity. Qed.

Lemma app_nil_l (a : string) : "" +:+ a = a.
Proof. reflexivity. Qed.

Lemma length_app (a b : string) :
  String.length (a +:+ b) = (String.length a + String.length b)%nat.
Proof.
  induction a as [|c a IH]; [reflexivity|].
  rewrite app_cons. simpl. now rewrite IH.
Qed.

Lemma app_assoc (a b c : string) : (a +:+ b) +:+ c = a +:+ (b +:+ c).
Proof.
  induction a as [|x a IH]; [reflexivity|].
  rewrite !app_cons. now rewrite IH.
Qed.

Lemma app_nil_r (a : string) : a +:+ "" = a.
Proof.
  induction a as [|x a IH]; [reflexivity|].
  rewrite app_cons. now rewrite IH.
Qed.

Lemma take_drop (n : nat) (s : string) : take n s +:+ drop n s = s.
Proof.
  revert s; induction n as [|n IH]; intros [|c s]; try reflexivity.
  cbn [take drop]. rewrite app_cons. now rewrite IH.
Qed.

Lemma drop_app (a b : string) : drop (String.length a) (a +:+ b) = b.
Proof.
  induction a as [|c a IH]; [now destruct b|].
  rewrite app_cons. exact IH.
Qed.

Lemma take_app (a b : string) : take (String.length a) (a +:+ b) = a.
Proof.
  induction a as [|c a IH]; [now destruct b|].
  rewrite app_cons. cbn [String.length take]. now rewrite IH.
Qed.

Lemma length_take (n : nat) (s : string) :
  (n <= String.length s)%nat -> String.length (take n s) = n.
Proof.
  revert s; induction n as [|n IH]; intros [|c s] H; simpl in *; try lia.
  now rewrite IH by lia.
Qed.

Lemma nonempty_false (s : string) : nonempty s = false <-> s = "".
Proof. destruct s; simpl; split; congruence. Qed.

Lemma nonempty_true (s : string) : nonempty s = true <-> s <> "".
Proof. destruct s; simpl; split; congruence. Qed.

(** [endswith] decides that the string is some prefix followed by the
    suffix. *)
Lemma endswith_spec (s suffix : string) :
  endswith s suffix = true <-> exists pre, s = pre +:+ suffix.
Proof.
  unfold endswith; rewrite andb_true_iff, Nat.leb_le, String.eqb_eq; split.
  - intros [_ H]. exists (take (String.length s - String.length suffix) s).
    set (n := (String.length s - String.length suffix)%nat) in *.
    rewrite <- (take_drop n s) at 1. now rewrite H.
  - intros [pre ->]. rewrite length_app. split; [lia|].
    replace (String.length pre + String.length suffix - String.length suffix)%nat
      with (String.length pre) by lia.
    apply drop_app.
Qed.

Lemma join_app (l1 l2 : list string) : join (l1 ++ l2) = join l1 +:+ join l2.
Proof.
  induction l1 as [|x l1 IH]; [reflexivity|].
  cbn [join fold_right app] in *. fold (join (l1 ++ l2)) (join l1).
  now rewrite IH, app_assoc.
Qed.

Lemma app_inv_tail (a b t : string) : a +:+ t = b +:+ t -> a = b.
Proof.
  intros H.
  assert (String.length a = String.length b) as Hl.
  { apply (f_equal String.length) in H. rewrite !length_app in H. lia. }
  rewrite <- (take_app a t), H, Hl. apply take_app.
Qed.

End StrFacts.

(** ** The steps of the router as functions of the state *)

Section Steps.

Context {db : Str.Unicode} {buf : Buffering}.

(** The state after [handle.write(data)]. *)
Definition written (path data : string) (st : State) : State :=
  (fwrite path data st).1.

(** The state after [handle.close()]. *)
Definition flushed (path : string) (st : State) : State :=
  (fclose path st).1.

(** The lines [write_record] writes. *)
Definition record_lines (tostring : Element -> string) (elem : Element)
    : list string :=
  map (fun line => "  " +:+ line +:+ Str.nl)
      (List.filter (fun line => Str.nonempty (Str.strip line))
                   (Str.split_lines (element_to_string tostring elem))).

Definition write_all (path : string) (chunks : list string) (st : State) : State :=
  fold_left (fun st data => written path data st) chunks st.

(** The state after [close_current]. *)
Definition closed (st : State) : State :=
  match current_file_handle st with
  | Some handle => flushed handle (written handle CLOSING_TAG st)
  | None => st
  end.

(** The state after [open(path, "w")] is assigned to
    [current_file_handle], and the state after [create_artifact]. *)
Definition opened_w (path : string) (st : State) : State :=
  set_current_file_handle (Some path)
    (emit (IoOpen path ModeW)
       (set_buffer "" (set_disk (<[path := ""]> (disk st)) st))).

Definition created (path : string) (st : State) : State :=
  set_file_count (S (file_count st))
    (written path ROOT_OPEN (written path XML_DECLARATION (opened_w path st))).

(** The state in which [reopen_artifact] computes the position. *)
Definition reopening (path : string) (st : State) : State :=
  set_current_file_handle (Some path)
    (emit (IoOpen path ModeRPlus) (set_buffer "" st)).

(** The state after a [reopen_artifact] that found at least eight bytes. *)
Definition reopened (path : string) (st : State) : State :=
  let position := String.length (content st path) - 8 in
  emit (IoTruncate path position)
    (set_buffer ""
       (set_disk (<[path := Str.take position (content st path)]> (disk st))
          (reopening path st))).

(** The sequence of a country after one of its records, and the path the
    record goes to. *)
Definition route_sequence_of (st : State) (c : string) : nat :=
  let seq0 := default 1 (file_stats st !! c) in
  if oversized st (artifact_path c seq0) then S seq0 else seq0.

Definition route_path (st : State) (c : string) : string :=
  artifact_path c (route_sequence_of st c).

(** The statistics bucket of a routed record: its date, or the fallback. *)
Definition route_date (d : option string) (e : Element) : string :=
  if truthy d then default "" d else fallback_date e.

Definition incremented (key : string) (m : gmap string nat) : gmap string nat :=
  <[key := S (default 0 (m !! key))]> m.

(** The state after the statistics and the sequence of a routed record are
    updated (lines 213-239). *)
Definition prepared (c : string) (d : option string) (e : Element)
    (st : State) : State :=
  set_file_stats (<[c := route_sequence_of st c]> (file_stats st))
    (set_stats (incremented ("date_" +:+ route_date d e)
                  (incremented ("country_" +:+ c) (stats st))) st).

(** The bytes of a file that the program has written, on the disk or still
    in the buffer of the open handle. *)
Definition logical (st : State) (path : string) : string :=
  content st path +:+ buffer st.

Lemma for_each_fwrite (path : string) (lines : list string) (st : State) :
  for_each lines (fun line =>
      if Str.nonempty (Str.strip line)
      then fwrite path ("  " +:+ line +:+ Str.nl)
      else ret tt) st
  = (write_all path
       (map (fun line => "  " +:+ line +:+ Str.nl)
            (List.filter (fun line => Str.nonempty (Str.strip line)) lines)) st,
     Ok tt).
Proof.
  revert st; induction lines as [|l ls IH]; intros st; [reflexivity|].
  cbn [for_each List.filter]. unfold bind at 1.
  destruct (Str.nonempty (Str.strip l)) eqn:Hl.
  - cbn [map write_all fold_left].
    unfold fwrite at 1, modify at 1. rewrite IH. reflexivity.
  - unfold ret at 1. apply IH.
Qed.

Lemma write_record_eq tostring path elem st :
  write_record tostring path elem st
  = (write_all path (record_lines tostring elem) st, Ok tt).
Proof. apply for_each_fwrite. Qed.

Lemma close_current_eq st : close_current st = (closed st, Ok tt).
Proof.
  unfold close_current, closed, bind, get_state.
  now destruct (current_file_handle st).
Qed.

Lemma create_artifact_eq path st : create_artifact path st = (created path st, Ok tt).
Proof.
  unfold create_artifact, created, opened_w, written, bind, fopen_w, fwrite, modify.
  cbn [fst snd]. reflexivity.
Qed.

Lemma len_CLOSING_TAG : Str.len CLOSING_TAG = 8.
Proof. reflexivity. Qed.

Lemma length_CLOSING_TAG : String.length CLOSING_TAG = 8.
Proof. reflexivity. Qed.

Lemma reopen_artifact_long path st :
  8 <= String.length (content st path) ->
  reopen_artifact path st = (reopened path st, Ok tt).
Proof.
  intros Hlen. unfold reopen_artifact, bind, fopen_rplus, modify, get_state.
  cbn [fst snd]. fold (reopening path st). unfold st_size.
  change (content (reopening path st) path) with (content st path).
  rewrite len_CLOSING_TAG.
  destruct (Z.ltb_spec (Z.of_nat (String.length (content st path)) - Z.of_nat 8) 0);
    [lia|].
  unfold ftruncate, modify, reopened.
  replace (Z.to_nat (Z.of_nat (String.length (content st path)) - Z.of_nat 8))
    with (String.length (content st path) - 8) by lia.
  change (content (reopening path st) path) with (content st path).
  change (buffer (reopening path st)) with "".
  now rewrite StrFacts.app_nil_r.
Qed.

Lemma reopen_artifact_short path st :
  String.length (content st path) < 8 ->
  reopen_artifact path st = (reopening path st, Raise ValueError).
Proof.
  intros Hlen. unfold reopen_artifact, bind, fopen_rplus, modify, get_state.
  cbn [fst snd]. fold (reopening path st). unfold st_size.
  change (content (reopening path st) path) with (content st path).
  rewrite len_CLOSING_TAG.
  destruct (Z.ltb_spec (Z.of_nat (String.length (content st path)) - Z.of_nat 8) 0);
    [reflexivity | lia].
Qed.

(** The four ways through [switch_to]. *)
Inductive switch_case (path : string) (st : State)
    : State -> result unit -> Prop :=
  | switch_same :
      current_file_path st = Some path ->
      switch_case path st st (Ok tt)
  | switch_create :
      current_file_path st <> Some path ->
      disk (closed st) !! path = None ->
      switch_case path st
        (set_current_file_path (Some path) (created path (closed st))) (Ok tt)
  | switch_reopen :
      current_file_path st <> Some path ->
      is_Some (disk (closed st) !! path) ->
      8 <= String.length (content (closed st) path) ->
      switch_case path st
        (set_current_file_path (Some path) (reopened path (closed st))) (Ok tt)
  | switch_reopen_short :
      current_file_path st <> Some path ->
      is_Some (disk (closed st) !! path) ->
      String.length (content (closed st) path) < 8 ->
      switch_case path st (reopening path (closed st)) (Raise ValueError).

Lemma switch_to_case path st :
  switch_case path st (switch_to path st).1 (switch_to path st).2.
Proof.
  remember (switch_to path st) as x eqn:E.
  unfold switch_to, bind at 1, get_state at 1 in E.
  destruct (bool_decide (Some path = current_file_path st)) eqn:Hsame.
  - apply bool_decide_eq_true in Hsame. subst x. now constructor.
  - apply bool_decide_eq_false in Hsame.
    unfold bind at 1 in E. rewrite close_current_eq in E.
    unfold bind at 1, get_state at 1 in E. unfold bind at 1 in E.
    unfold path_exists in E.
    destruct (decide (is_Some (disk (closed st) !! path))) as [Hex|Hex].
    + rewrite bool_decide_eq_true_2 in E by exact Hex.
      destruct (Nat.le_gt_cases 8 (String.length (content (closed st) path)))
        as [Hlen|Hlen].
      * rewrite reopen_artifact_long in E by exact Hlen. subst x.
        apply switch_reopen; [congruence | exact Hex | exact Hlen].
      * rewrite reopen_artifact_short in E by exact Hlen. subst x.
        apply switch_reopen_short; [congruence | exact Hex | exact Hlen].
    + rewrite bool_decide_eq_false_2 in E by exact Hex.
      rewrite create_artifact_eq in E. subst x.
      apply switch_create; [congruence|].
      destruct (disk (closed st) !! path) eqn:E; [|reflexivity].
      exfalso. apply Hex. eauto.
Qed.

Lemma oversized_ext st1 st2 p :
  disk st1 = disk st2 -> max_bytes st1 = max_bytes st2 ->
  oversized st1 p = oversized st2 p.
Proof.
  intros Hd Hm. unfold oversized, path_exists, st_size, content.
  now rewrite Hd, Hm.
Qed.

Lemma oversized_spec st p :
  oversized st p = true <->
  exists data, disk st !! p = Some data /\
               (Z.of_nat (String.length data) > max_bytes st)%Z.
Proof.
  unfold oversized, path_exists, st_size, content.
  rewrite andb_true_iff, bool_decide_eq_true, Z.gtb_gt. split.
  - intros [[data Hd] Hsz]. exists data. rewrite Hd in Hsz. now split.
  - intros (data & Hd & Hsz). rewrite Hd. split; [eauto | exact Hsz].
Qed.

Lemma set_file_stats_id st : set_file_stats (file_stats st) st = st.
Proof. now destruct st. Qed.

(** Lines 213-239 in one step. *)
Lemma prepare_eq c d e st :
  (stats_incr ("country_" +:+ c) ;;
   stats_incr ("date_" +:+ route_date d e) ;;
   sequence <- setdefault_sequence c ;;
   rollover c sequence) st
  = (prepared c d e st, Ok (route_path st c)).
Proof.
  unfold bind at 1, stats_incr at 1, modify at 1.
  unfold bind at 1, stats_incr at 1, modify at 1.
  set (st1 := set_stats _ _).
  assert (st1 = set_stats (incremented ("date_" +:+ route_date d e)
                  (incremented ("country_" +:+ c) (stats st))) st) as Hst1
    by reflexivity.
  assert (file_stats st1 = file_stats st) as Hfs by reflexivity.
  assert (forall fs p, oversized (set_file_stats fs st1) p = oversized st p) as Hov
    by (intros; now apply oversized_ext).
  assert (forall p, oversized st1 p = oversized st p) as Hov1
    by (intros; now apply oversized_ext).
  unfold prepared, route_path, route_sequence_of. rewrite <- Hst1, <- Hfs.
  clearbody st1. clear Hst1 Hfs.
  unfold bind at 1, setdefault_sequence.
  destruct (file_stats st1 !! c) as [n|] eqn:Hn; cbn [default];
    unfold rollover, bind at 1, get_state at 1.
  - rewrite Hov1. destruct (oversized st _).
    + reflexivity.
    + unfold ret. now rewrite insert_id, set_file_stats_id.
  - rewrite Hov. destruct (oversized st _).
    + unfold bind, modify, ret. cbn. now rewrite insert_insert_eq.
    + reflexivity.
Qed.

Variable ts : Element -> string.

Lemma route_eq c d e st :
  route ts c d e st
  = (switch_to (route_path st c) ;; write_record ts (route_path st c) e)
      (prepared c d e st).
Proof.
  pose proof (prepare_eq c d e st) as H. unfold route.
  fold (route_date d e).
  unfold bind in *.
  destruct (stats_incr ("country_" +:+ c) st) as [st1 [[]|x]]; [|discriminate H].
  destruct (stats_incr ("date_" +:+ route_date d e) st1) as [st2 [[]|x]];
    [|discriminate H].
  destruct (setdefault_sequence c st2) as [st3 [n|x]]; [|discriminate H].
  now rewrite H.
Qed.

End Steps.

(** ** What each step leaves unchanged

    The fields of the state after each step, in terms of the state before
    it. *)

Section Projections.

Context {db : Str.Unicode} {buf : Buffering}.

Lemma set_processed_cards_max_bytes v st :
  max_bytes (set_processed_cards v st) = max_bytes st.
Proof. reflexivity. Qed.
Lemma set_processed_cards_file_stats v st :
  file_stats (set_processed_cards v st) = file_stats st.
Proof. reflexivity. Qed.
Lemma set_processed_cards_stats v st :
  stats (set_processed_cards v st) = stats st.
Proof. reflexivity. Qed.
Lemma set_processed_cards_file_count v st :
  file_count (set_processed_cards v st) = file_count st.
Proof. reflexivity. Qed.
Lemma set_processed_cards_processed_cards v st :
  processed_cards (set_processed_cards v st) = v.
Proof. reflexivity. Qed.
Lemma set_processed_cards_handle v st :
  current_file_handle (set_processed_cards v st) = current_file_handle st.
Proof. reflexivity. Qed.
Lemma set_processed_cards_path v st :
  current_file_path (set_processed_cards v st) = current_file_path st.
Proof. reflexivity. Qed.
Lemma set_processed_cards_trace v st :
  io_trace (set_processed_cards v st) = io_trace st.
Proof. reflexivity. Qed.
Lemma set_processed_cards_disk v st : disk (set_processed_cards v st) = disk st.
Proof. reflexivity. Qed.
Lemma set_processed_cards_buffer v st :
  buffer (set_processed_cards v st) = buffer st.
Proof. reflexivity. Qed.

Lemma set_file_count_max_bytes v st :
  max_bytes (set_file_count v st) = max_bytes st.
Proof. reflexivity. Qed.
Lemma set_file_count_file_stats v st :
  file_stats (set_file_count v st) = file_stats st.
Proof. reflexivity. Qed.
Lemma set_file_count_stats v st : stats (set_file_count v st) = stats st.
Proof. reflexivity. Qed.
Lemma set_file_count_file_count v st : file_count (set_file_count v st) = v.
Proof. reflexivity. Qed.
Lemma set_file_count_processed_cards v st :
  processed_cards (set_file_count v st) = processed_cards st.
Proof. reflexivity. Qed.
Lemma set_file_count_handle v st :
  current_file_handle (set_file_count v st) = current_file_handle st.
Proof. reflexivity. Qed.
Lemma set_file_count_path v st :
  current_file_path (set_file_count v st) = current_file_path st.
Proof. reflexivity. Qed.
Lemma set_file_count_trace v st : io_trace (set_file_count v st) = io_trace st.
Proof. reflexivity. Qed.
Lemma set_file_count_disk v st : disk (set_file_count v st) = disk st.
Proof. reflexivity. Qed.
Lemma set_file_count_buffer v st : buffer (set_file_count v st) = buffer st.
Proof. reflexivity. Qed.

Lemma set_path_max_bytes v st :
  max_bytes (set_current_file_path v st) = max_bytes st.
Proof. reflexivity. Qed.
Lemma set_path_file_stats v st :
  file_stats (set_current_file_path v st) = file_stats st.
Proof. reflexivity. Qed.
Lemma set_path_stats v st : stats (set_current_file_path v st) = stats st.
Proof. reflexivity. Qed.
Lemma set_path_file_count v st :
  file_count (set_current_file_path v st) = file_count st.
Proof. reflexivity. Qed.
Lemma set_path_processed_cards v st :
  processed_cards (set_current_file_path v st) = processed_cards st.
Proof. reflexivity. Qed.
Lemma set_path_handle v st :
  current_file_handle (set_current_file_path v st) = current_file_handle st.
Proof. reflexivity. Qed.
Lemma set_path_path v st : current_file_path (set_current_file_path v st) = v.
Proof. reflexivity. Qed.
Lemma set_path_trace v st : io_trace (set_current_file_path v st) = io_trace st.
Proof. reflexivity. Qed.
Lemma set_path_disk v st : disk (set_current_file_path v st) = disk st.
Proof. reflexivity. Qed.
Lemma set_path_buffer v st : buffer (set_current_file_path v st) = buffer st.
Proof. reflexivity. Qed.

Lemma written_max_bytes p d st : max_bytes (written p d st) = max_bytes st.
Proof. reflexivity. Qed.
Lemma written_file_stats p d st : file_stats (written p d st) = file_stats st.
Proof. reflexivity. Qed.
Lemma written_stats p d st : stats (written p d st) = stats st.
Proof. reflexivity. Qed.
Lemma written_file_count p d st : file_count (written p d st) = file_count st.
Proof. reflexivity. Qed.
Lemma written_processed_cards p d st :
  processed_cards (written p d st) = processed_cards st.
Proof. reflexivity. Qed.
Lemma written_handle p d st :
  current_file_handle (written p d st) = current_file_handle st.
Proof. reflexivity. Qed.
Lemma written_path p d st :
  current_file_path (written p d st) = current_file_path st.
Proof. reflexivity. Qed.
Lemma written_trace p d st :
  io_trace (written p d st) = io_trace st ++ [IoWrite p d].
Proof. reflexivity. Qed.

Lemma written_disk_other p d st q :
  q <> p -> disk (written p d st) !! q = disk st !! q.
Proof. intros Hq. unfold written. cbn. now rewrite lookup_insert_ne. Qed.

Lemma written_disk_dom p d st q :
  is_Some (disk st !! q) -> is_Some (disk (written p d st) !! q).
Proof.
  intros Hq. unfold written. cbn. apply lookup_insert_is_Some'. now right.
Qed.

Lemma written_disk_target p d st : is_Some (disk (written p d st) !! p).
Proof. unfold written. cbn. rewrite lookup_insert_eq. eauto. Qed.

(** A write adds its data to the bytes of the file, wherever the handle
    keeps them. *)
Lemma written_logical p d st : logical (written p d st) p = logical st p +:+ d.
Proof.
  unfold logical, written, content. cbn. rewrite lookup_insert_eq. cbn.
  rewrite (StrFacts.app_assoc _ (Str.take _ _)), StrFacts.take_drop.
  now rewrite StrFacts.app_assoc.
Qed.

Lemma flushed_max_bytes p st : max_bytes (flushed p st) = max_bytes st.
Proof. reflexivity. Qed.
Lemma flushed_file_stats p st : file_stats (flushed p st) = file_stats st.
Proof. reflexivity. Qed.
Lemma flushed_stats p st : stats (flushed p st) = stats st.
Proof. reflexivity. Qed.
Lemma flushed_file_count p st : file_count (flushed p st) = file_count st.
Proof. reflexivity. Qed.
Lemma flushed_processed_cards p st :
  processed_cards (flushed p st) = processed_cards st.
Proof. reflexivity. Qed.
Lemma flushed_handle p st :
  current_file_handle (flushed p st) = current_file_handle st.
Proof. reflexivity. Qed.
Lemma flushed_path p st :
  current_file_path (flushed p st) = current_file_path st.
Proof. reflexivity. Qed.
Lemma flushed_trace p st : io_trace (flushed p st) = io_trace st ++ [IoClose p].
Proof. reflexivity. Qed.
Lemma flushed_disk p st : disk (flushed p st) = <[p := logical st p]> (disk st).
Proof. reflexivity. Qed.
Lemma flushed_buffer p st : buffer (flushed p st) = "".
Proof. reflexivity. Qed.

Lemma opened_w_max_bytes p st : max_bytes (opened_w p st) = max_bytes st.
Proof. reflexivity. Qed.
Lemma opened_w_file_stats p st : file_stats (opened_w p st) = file_stats st.
Proof. reflexivity. Qed.
Lemma opened_w_stats p st : stats (opened_w p st) = stats st.
Proof. reflexivity. Qed.
Lemma opened_w_file_count p st : file_count (opened_w p st) = file_count st.
Proof. reflexivity. Qed.
Lemma opened_w_processed_cards p st :
  processed_cards (opened_w p st) = processed_cards st.
Proof. reflexivity. Qed.
Lemma opened_w_handle p st : current_file_handle (opened_w p st) = Some p.
Proof. reflexivity. Qed.
Lemma opened_w_path p st :
  current_file_path (opened_w p st) = current_file_path st.
Proof. reflexivity. Qed.
Lemma opened_w_trace p st :
  io_trace (opened_w p st) = io_trace st ++ [IoOpen p ModeW].
Proof. reflexivity. Qed.
Lemma opened_w_disk p st : disk (opened_w p st) = <[p := ""]> (disk st).
Proof. reflexivity. Qed.
Lemma opened_w_buffer p st : buffer (opened_w p st) = "".
Proof. reflexivity. Qed.

Lemma reopening_max_bytes p st : max_bytes (reopening p st) = max_bytes st.
Proof. reflexivity. Qed.
Lemma reopening_file_stats p st : file_stats (reopening p st) = file_stats st.
Proof. reflexivity. Qed.
Lemma reopening_stats p st : stats (reopening p st) = stats st.
Proof. reflexivity. Qed.
Lemma reopening_file_count p st : file_count (reopening p st) = file_count st.
Proof. reflexivity. Qed.
Lemma reopening_processed_cards p st :
  processed_cards (reopening p st) = processed_cards st.
Proof. reflexivity. Qed.
Lemma reopening_handle p st : current_file_handle (reopening p st) = Some p.
Proof. reflexivity. Qed.
Lemma reopening_path p st :
  current_file_path (reopening p st) = current_file_path st.
Proof. reflexivity. Qed.
Lemma reopening_trace p st :
  io_trace (reopening p st) = io_trace st ++ [IoOpen p ModeRPlus].
Proof. reflexivity. Qed.
Lemma reopening_disk p st : disk (reopening p st) = disk st.
Proof. reflexivity. Qed.
Lemma reopening_buffer p st : buffer (reopening p st) = "".
Proof. reflexivity. Qed.

Lemma reopened_max_bytes p st : max_bytes (reopened p st) = max_bytes st.
Proof. reflexivity. Qed.
Lemma reopened_file_stats p st : file_stats (reopened p st) = file_stats st.
Proof. reflexivity. Qed.
Lemma reopened_stats p st : stats (reopened p st) = stats st.
Proof. reflexivity. Qed.
Lemma reopened_file_count p st : file_count (reopened p st) = file_count st.
Proof. reflexivity. Qed.
Lemma reopened_processed_cards p st :
  processed_cards (reopened p st) = processed_cards st.
Proof. reflexivity. Qed.
Lemma reopened_handle p st : current_file_handle (reopened p st) = Some p.
Proof. reflexivity. Qed.
Lemma reopened_path p st :
  current_file_path (reopened p st) = current_file_path st.
Proof. reflexivity. Qed.
Lemma reopened_disk p st :
  disk (reopened p st)
  = <[p := Str.take (String.length (content st p) - 8) (content st p)]> (disk st).
Proof. reflexivity. Qed.
Lemma reopened_buffer p st : buffer (reopened p st) = "".
Proof. reflexivity. Qed.

Lemma reopened_trace p st :
  io_trace (reopened p st)
  = io_trace st ++ [IoOpen p ModeRPlus;
                    IoTruncate p (String.length (content st p) - 8)].
Proof. unfold reopened, reopening. cbn. now rewrite <- app_assoc. Qed.

Lemma prepared_max_bytes c d e st :
  max_bytes (prepared c d e st) = max_bytes st.
Proof. reflexivity. Qed.
Lemma prepared_file_stats c d e st :
  file_stats (prepared c d e st)
  = <[c := route_sequence_of st c]> (file_stats st).
Proof. reflexivity. Qed.
Lemma prepared_stats c d e st :
  stats (prepared c d e st) = incremented ("date_" +:+ route_date d e)
      (incremented ("country_" +:+ c) (stats st)).
Proof. reflexivity. Qed.
Lemma prepared_file_count c d e st :
  file_count (prepared c d e st) = file_count st.
Proof. reflexivity. Qed.
Lemma prepared_processed_cards c d e st :
  processed_cards (prepared c d e st) = processed_cards st.
Proof. reflexivity. Qed.
Lemma prepared_handle c d e st :
  current_file_handle (prepared c d e st) = current_file_handle st.
Proof. reflexivity. Qed.
Lemma prepared_path c d e st :
  current_file_path (prepared c d e st) = current_file_path st.
Proof. reflexivity. Qed.
Lemma prepared_trace c d e st : io_trace (prepared c d e st) = io_trace st.
Proof. reflexivity. Qed.
Lemma prepared_disk c d e st : disk (prepared c d e st) = disk st.
Proof. reflexivity. Qed.
Lemma prepared_buffer c d e st : buffer (prepared c d e st) = buffer st.
Proof. reflexivity. Qed.

Section WriteAll.

Variables (path : string) (chunks : list string) (st : State).

Let st' := write_all path chunks st.

Lemma write_all_frame :
  max_bytes st' = max_bytes st /\ file_stats st' = file_stats st /\
  stats st' = stats st /\ file_count st' = file_count st /\
  processed_cards st' = processed_cards st /\
  current_file_handle st' = current_file_handle st /\
  current_file_path st' = current_file_path st.
Proof.
  subst st'. revert st. induction chunks as [|d ds IH]; intros st0; [easy|].
  unfold write_all in *. cbn [fold_left].
  destruct (IH (written path d st0)) as (?&?&?&?&?&?&?).
  repeat split; etransitivity; eauto.
Qed.

Lemma write_all_trace :
  io_trace st' = io_trace st ++ map (IoWrite path) chunks.
Proof.
  subst st'. revert st. induction chunks as [|d ds IH]; intros st0.
  - cbn. now rewrite app_nil_r.
  - unfold write_all in *. cbn [fold_left map]. rewrite IH, written_trace.
    now rewrite <- app_assoc.
Qed.

Lemma write_all_other (q : string) :
  q <> path -> disk st' !! q = disk st !! q.
Proof.
  intros Hq. subst st'. revert st. induction chunks as [|d ds IH]; intros st0; [easy|].
  unfold write_all in *. cbn [fold_left]. rewrite IH.
  now apply written_disk_other.
Qed.

Lemma write_all_logical :
  logical st' path = logical st path +:+ Str.join chunks.
Proof.
  subst st'. revert st. induction chunks as [|d ds IH]; intros st0.
  - cbn. now rewrite StrFacts.app_nil_r.
  - unfold write_all in *. cbn [fold_left]. rewrite IH, written_logical.
    now rewrite StrFacts.app_assoc.
Qed.

Lemma write_all_dom (q : string) :
  is_Some (disk st !! q) -> is_Some (disk st' !! q).
Proof.
  subst st'. revert st. induction chunks as [|d ds IH]; intros st0 H; [easy|].
  unfold write_all in *. cbn [fold_left]. apply IH. now apply written_disk_dom.
Qed.

End WriteAll.

Lemma write_all_max_bytes p ds st :
  max_bytes (write_all p ds st) = max_bytes st.
Proof. apply write_all_frame. Qed.
Lemma write_all_file_stats p ds st :
  file_stats (write_all p ds st) = file_stats st.
Proof. apply write_all_frame. Qed.
Lemma write_all_stats p ds st : stats (write_all p ds st) = stats st.
Proof. apply write_all_frame. Qed.
Lemma write_all_file_count p ds st :
  file_count (write_all p ds st) = file_count st.
Proof. apply write_all_frame. Qed.
Lemma write_all_processed_cards p ds st :
  processed_cards (write_all p ds st) = processed_cards st.
Proof. apply write_all_frame. Qed.
Lemma write_all_handle p ds st :
  current_file_handle (write_all p ds st) = current_file_handle st.
Proof. apply write_all_frame. Qed.
Lemma write_all_path p ds st :
  current_file_path (write_all p ds st) = current_file_path st.
Proof. apply write_all_frame. Qed.

Local Ltac closed_field :=
  intros st; unfold closed; destruct (current_file_handle st) eqn:Hh;
  [ rewrite ?flushed_max_bytes, ?flushed_file_stats, ?flushed_stats,
      ?flushed_file_count, ?flushed_processed_cards, ?flushed_handle,
      ?flushed_path, ?flushed_buffer;
    rewrite ?written_max_bytes, ?written_file_stats, ?written_stats,
      ?written_file_count, ?written_processed_cards, ?written_handle,
      ?written_path;
    first [reflexivity | exact Hh]
  | first [reflexivity | exact Hh] ].

Lemma closed_max_bytes : forall st, max_bytes (closed st) = max_bytes st.
Proof. closed_field. Qed.
Lemma closed_file_stats : forall st, file_stats (closed st) = file_stats st.
Proof. closed_field. Qed.
Lemma closed_stats : forall st, stats (closed st) = stats st.
Proof. closed_field. Qed.
Lemma closed_file_count : forall st, file_count (closed st) = file_count st.
Proof. closed_field. Qed.
Lemma closed_processed_cards :
  forall st, processed_cards (closed st) = processed_cards st.
Proof. closed_field. Qed.
Lemma closed_handle :
  forall st, current_file_handle (closed st) = current_file_handle st.
Proof. closed_field. Qed.
Lemma closed_path :
  forall st, current_file_path (closed st) = current_file_path st.
Proof. closed_field. Qed.

Lemma closed_trace st :
  io_trace (closed st)
  = io_trace st ++ match current_file_handle st with
                   | Some h => [IoWrite h CLOSING_TAG; IoClose h]
                   | None => []
                   end.
Proof.
  unfold closed. destruct (current_file_handle st) as [h|].
  - rewrite flushed_trace, written_trace. now rewrite <- app_assoc.
  - now rewrite app_nil_r.
Qed.

(** Closing passes on the buffer and the closing tag. *)
Lemma closed_disk st :
  disk (closed st)
  = match current_file_handle st with
    | Some h => <[h := logical st h +:+ CLOSING_TAG]> (disk st)
    | None => disk st
    end.
Proof.
  unfold closed. destruct (current_file_handle st) as [h|]; [|reflexivity].
  rewrite flushed_disk, written_logical. unfold written. cbn.
  now rewrite insert_insert_eq.
Qed.

Lemma closed_buffer st :
  buffer (closed st)
  = match current_file_handle st with Some _ => "" | None => buffer st end.
Proof.
  unfold closed. destruct (current_file_handle st) as [h|]; [|reflexivity].
  apply flushed_buffer.
Qed.

Local Ltac created_field :=
  intros p st; unfold created;
  rewrite ?set_file_count_max_bytes, ?set_file_count_file_stats,
    ?set_file_count_stats, ?set_file_count_file_count,
    ?set_file_count_processed_cards, ?set_file_count_handle,
    ?set_file_count_path, ?set_file_count_trace, ?set_file_count_disk;
  rewrite ?written_max_bytes, ?written_file_stats, ?written_stats,
    ?written_file_count, ?written_processed_cards, ?written_handle,
    ?written_path, ?written_trace;
  rewrite ?opened_w_max_bytes, ?opened_w_file_stats, ?opened_w_stats,
    ?opened_w_file_count, ?opened_w_processed_cards, ?opened_w_handle,
    ?opened_w_path, ?opened_w_trace.

Lemma created_max_bytes : forall p st, max_bytes (created p st) = max_bytes st.
Proof. created_field. reflexivity. Qed.
Lemma created_file_stats :
  forall p st, file_stats (created p st) = file_stats st.
Proof. created_field. reflexivity. Qed.
Lemma created_stats : forall p st, stats (created p st) = stats st.
Proof. created_field. reflexivity. Qed.
Lemma created_file_count :
  forall p st, file_count (created p st) = S (file_count st).
Proof. created_field. reflexivity. Qed.
Lemma created_processed_cards :
  forall p st, processed_cards (created p st) = processed_cards st.
Proof. created_field. reflexivity. Qed.
Lemma created_handle : forall p st, current_file_handle (created p st) = Some p.
Proof. created_field. reflexivity. Qed.
Lemma created_path :
  forall p st, current_file_path (created p st) = current_file_path st.
Proof. created_field. reflexivity. Qed.
Lemma created_trace :
  forall p st,
    io_trace (created p st)
    = io_trace st ++ [IoOpen p ModeW; IoWrite p XML_DECLARATION;
                      IoWrite p ROOT_OPEN].
Proof. created_field. now rewrite <- !app_assoc. Qed.

Lemma created_disk_other p st q :
  q <> p -> disk (created p st) !! q = disk st !! q.
Proof.
  intros Hq. unfold created. rewrite set_file_count_disk.
  rewrite !written_disk_other by exact Hq.
  rewrite opened_w_disk. now rewrite lookup_insert_ne.
Qed.

Lemma created_disk_dom p st q :
  is_Some (disk st !! q) -> is_Some (disk (created p st) !! q).
Proof.
  intros Hq. unfold created. rewrite set_file_count_disk.
  do 2 apply written_disk_dom. rewrite opened_w_disk.
  apply lookup_insert_is_Some'. now right.
Qed.

Lemma created_disk_target p st : is_Some (disk (created p st) !! p).
Proof. unfold created. rewrite set_file_count_disk. apply written_disk_target. Qed.

Lemma logical_ext st st' p :
  disk st' = disk st -> buffer st' = buffer st -> logical st' p = logical st p.
Proof. unfold logical, content. now intros -> ->. Qed.

(** A new artifact holds the declaration and the opening tag. *)
Lemma created_logical p st :
  logical (created p st) p = XML_DECLARATION +:+ ROOT_OPEN.
Proof.
  unfold created.
  rewrite (logical_ext _ _ _ (set_file_count_disk _ _) (set_file_count_buffer _ _)).
  rewrite !written_logical. unfold logical, content.
  rewrite opened_w_disk, opened_w_buffer. now rewrite lookup_insert_eq.
Qed.

End Projections.

Arguments written : simpl never.
Arguments flushed : simpl never.
Arguments write_all : simpl never.
Arguments closed : simpl never.
Arguments opened_w : simpl never.
Arguments created : simpl never.
Arguments reopening : simpl never.
Arguments reopened : simpl never.
Arguments prepared : simpl never.

Create Rewrite HintDb frame.
#[export] Hint Rewrite
  set_processed_cards_max_bytes set_processed_cards_file_stats
  set_processed_cards_stats set_processed_cards_file_count
  set_processed_cards_processed_cards set_processed_cards_handle
  set_processed_cards_path set_processed_cards_trace set_processed_cards_disk
  set_processed_cards_buffer
  set_path_max_bytes set_path_file_stats set_path_stats set_path_file_count
  set_path_processed_cards set_path_handle set_path_path set_path_trace
  set_path_disk set_path_buffer
  @written_max_bytes @written_file_stats @written_stats @written_file_count
  @written_processed_cards @written_handle @written_path @written_trace
  @write_all_max_bytes @write_all_file_stats @write_all_stats
  @write_all_file_count @write_all_processed_cards @write_all_handle
  @write_all_path @write_all_trace
  @closed_max_bytes @closed_file_stats @closed_stats @closed_file_count
  @closed_processed_cards @closed_handle @closed_path @closed_trace
  @closed_disk @closed_buffer
  @created_max_bytes @created_file_stats @created_stats @created_file_count
  @created_processed_cards @created_handle @created_path @created_trace
  reopening_max_bytes reopening_file_stats reopening_stats reopening_file_count
  reopening_processed_cards reopening_handle reopening_path reopening_trace
  reopening_disk reopening_buffer
  reopened_max_bytes reopened_file_stats reopened_stats reopened_file_count
  reopened_processed_cards reopened_handle reopened_path reopened_trace
  reopened_disk reopened_buffer
  @prepared_max_bytes @prepared_file_stats @prepared_stats @prepared_file_count
  @prepared_processed_cards @prepared_handle @prepared_path @prepared_trace
  @prepared_disk @prepared_buffer : frame.

(** Projections of the states the router goes through. *)
Ltac frame := autorewrite with frame.

(** ** The routed record *)

Section RouteFacts.

Context {db : Str.Unicode} {buf : Buffering}.

Variable ts : Element -> string.

(** Case analysis on a routed record: the four ways through [switch_to],
    followed by the record when the artifact could be opened. *)
Lemma route_elim (P : State -> result unit -> Prop) c d e st :
  let p := route_path st c in
  let lines := record_lines ts e in
  let st0 := prepared c d e st in
  (current_file_path st = Some p -> P (write_all p lines st0) (Ok tt)) ->
  (current_file_path st <> Some p -> disk (closed st0) !! p = None ->
   P (write_all p lines (set_current_file_path (Some p) (created p (closed st0))))
     (Ok tt)) ->
  (current_file_path st <> Some p -> is_Some (disk (closed st0) !! p) ->
   8 <= String.length (content (closed st0) p) ->
   P (write_all p lines (set_current_file_path (Some p) (reopened p (closed st0))))
     (Ok tt)) ->
  (current_file_path st <> Some p -> is_Some (disk (closed st0) !! p) ->
   String.length (content (closed st0) p) < 8 ->
   P (reopening p (closed st0)) (Raise ValueError)) ->
  P (route ts c d e st).1 (route ts c d e st).2.
Proof.
  intros p lines st0 H1 H2 H3 H4.
  rewrite route_eq. fold p st0. unfold bind.
  pose proof (switch_to_case p st0) as Hsw.
  destruct (switch_to p st0) as [st1 [[]|x]]; cbn [fst snd] in *.
  - rewrite write_record_eq. cbn [fst snd]. fold lines.
    inversion Hsw as [Hp|Hp Hd|Hp Hd Hl|]; subst;
      unfold st0 in Hp; rewrite prepared_path in Hp; auto.
  - inversion Hsw as [| | |Hp Hd Hl]; subst.
    unfold st0 in Hp. rewrite prepared_path in Hp. auto.
Qed.

Lemma route_max_bytes c d e st : max_bytes (route ts c d e st).1 = max_bytes st.
Proof.
  apply (route_elim (fun st' _ => max_bytes st' = max_bytes st)); intros;
    now frame.
Qed.

Lemma route_processed_cards c d e st :
  processed_cards (route ts c d e st).1 = processed_cards st.
Proof.
  apply (route_elim (fun st' _ => processed_cards st' = processed_cards st));
    intros; now frame.
Qed.

Lemma route_stats c d e st :
  stats (route ts c d e st).1 =
  <["date_" +:+ route_date d e :=
      S (default 0 (stats st !! ("date_" +:+ route_date d e)))]>
    (<["country_" +:+ c := S (default 0 (stats st !! ("country_" +:+ c)))]>
       (stats st)).
Proof.
  apply (route_elim (fun st' _ => stats st' = _)); intros; frame;
    unfold incremented; rewrite lookup_insert_ne by discriminate; reflexivity.
Qed.

Lemma route_file_stats c d e st :
  file_stats (route ts c d e st).1
  = <[c := route_sequence_of st c]> (file_stats st).
Proof.
  apply (route_elim (fun st' _ => file_stats st' = _)); intros; now frame.
Qed.

(** The sequence of a country after one routed record. *)
Lemma route_sequence c d e st :
  file_stats (route ts c d e st).1 !! c = Some (route_sequence_of st c).
Proof. rewrite route_file_stats. apply lookup_insert_eq. Qed.

Lemma route_file_stats_other c d e st c' :
  c' <> c -> file_stats (route ts c d e st).1 !! c' = file_stats st !! c'.
Proof. intros H. rewrite route_file_stats. now apply lookup_insert_ne. Qed.

(** The artifact open after a routed record is the one of its path. *)
Lemma route_handle c d e st :
  current_file_path st = current_file_handle st ->
  current_file_handle (route ts c d e st).1 = Some (route_path st c).
Proof.
  intros Hinv.
  apply (route_elim (fun st' _ => current_file_handle st' = _)); intros; frame;
    congruence.
Qed.

Lemma closed_disk_other st q :
  current_file_handle st <> Some q -> disk (closed st) !! q = disk st !! q.
Proof.
  intros Hq. rewrite closed_disk. destruct (current_file_handle st) as [h|];
    [|reflexivity].
  apply lookup_insert_ne. congruence.
Qed.

Lemma closed_disk_dom st q :
  is_Some (disk st !! q) -> is_Some (disk (closed st) !! q).
Proof.
  intros Hq. rewrite closed_disk. destruct (current_file_handle st); [|exact Hq].
  apply lookup_insert_is_Some'. now right.
Qed.

(** A routed record touches the file of its path and the artifact that
    was open, and no other. *)
Lemma route_disk_other c d e st q :
  q <> route_path st c ->
  current_file_handle st <> Some q ->
  disk (route ts c d e st).1 !! q = disk st !! q.
Proof.
  intros Hq Hh.
  assert (disk (closed (prepared c d e st)) !! q = disk st !! q) as Hc.
  { rewrite closed_disk_other by now frame. now frame. }
  apply (route_elim (fun st' _ => disk st' !! q = disk st !! q)); intros;
    rewrite ?write_all_other by exact Hq;
    rewrite ?set_path_disk, ?reopened_disk, ?reopening_disk, ?prepared_disk.
  - reflexivity.
  - rewrite created_disk_other by exact Hq. exact Hc.
  - rewrite lookup_insert_ne by congruence. exact Hc.
  - exact Hc.
Qed.

(** No file is removed. *)
Lemma route_disk_dom c d e st q :
  is_Some (disk st !! q) -> is_Some (disk (route ts c d e st).1 !! q).
Proof.
  intros Hq.
  assert (is_Some (disk (closed (prepared c d e st)) !! q)) as Hc
    by (apply closed_disk_dom; now frame).
  apply (route_elim (fun st' _ => is_Some (disk st' !! q))); intros;
    try apply write_all_dom;
    rewrite ?set_path_disk, ?reopened_disk, ?reopening_disk, ?prepared_disk.
  - exact Hq.
  - now apply created_disk_dom.
  - apply lookup_insert_is_Some'. now right.
  - exact Hc.
Qed.

(** The record handler when the country is falsy: only the counter moves. *)
Lemma process_event_unrouted elem st :
  Str.endswith (tag elem) "businesscard" = true ->
  truthy (extract_country elem) = false ->
  process_event ts elem st
  = (set_processed_cards (S (processed_cards st)) st, Ok tt).
Proof. intros Htag Hc. unfold process_event. now rewrite Htag, Hc. Qed.

Lemma process_event_routed elem st country :
  Str.endswith (tag elem) "businesscard" = true ->
  extract_country elem = Some country -> country <> "" ->
  process_event ts elem st
  = route ts country (extract_date elem) elem
      (set_processed_cards (S (processed_cards st)) st).
Proof.
  intros Htag Hc Hne. unfold process_event. rewrite Htag, Hc.
  cbn [truthy default]. apply StrFacts.nonempty_true in Hne. now rewrite Hne.
Qed.

(** The three ways through [process_event]. *)
Lemma process_event_elim (P : State * result unit -> Prop) elem st :
  (Str.endswith (tag elem) "businesscard" = false -> P (st, Ok tt)) ->
  (Str.endswith (tag elem) "businesscard" = true ->
   truthy (extract_country elem) = false ->
   P (set_processed_cards (S (processed_cards st)) st, Ok tt)) ->
  (forall country,
     Str.endswith (tag elem) "businesscard" = true ->
     extract_country elem = Some country -> country <> "" ->
     P (route ts country (extract_date elem) elem
          (set_processed_cards (S (processed_cards st)) st))) ->
  P (process_event ts elem st).
Proof.
  intros H1 H2 H3.
  destruct (Str.endswith (tag elem) "businesscard") eqn:Htag;
    [|unfold process_event; rewrite Htag; auto].
  destruct (truthy (extract_country elem)) eqn:Hc;
    [|rewrite process_event_unrouted by assumption; auto].
  destruct (extract_country elem) as [country|] eqn:Hcountry; [|discriminate].
  cbn in Hc. apply StrFacts.nonempty_true in Hc.
  rewrite (process_event_routed _ _ _ Htag Hcountry Hc). auto.
Qed.

(** ** The loop and the final close *)

Lemma for_each_inv {A} (I : State -> Prop) (body : A -> M unit) l st :
  (forall x st, I st -> I (body x st).1) -> I st -> I (for_each l body st).1.
Proof.
  intros Hbody. revert st. induction l as [|x l IH]; intros st HI; [exact HI|].
  cbn [for_each]. unfold bind. specialize (Hbody x st HI).
  destruct (body x st) as [st' [[]|e]]; cbn [fst] in *;
    [now apply IH | exact Hbody].
Qed.

(** An invariant [I] kept by the body as long as it returns, with [W]
    holding where it raises. *)
Lemma for_each_inv_raise {A} (I W : State -> Prop) (body : A -> M unit) l st :
  (forall x st, I st ->
     match (body x st).2 with
     | Ok _ => I (body x st).1
     | Raise _ => W (body x st).1
     end) ->
  I st ->
  match (for_each l body st).2 with
  | Ok _ => I (for_each l body st).1
  | Raise _ => W (for_each l body st).1
  end.
Proof.
  intros Hbody. revert st. induction l as [|x l IH]; intros st HI; [exact HI|].
  cbn [for_each]. unfold bind. specialize (Hbody x st HI).
  destruct (body x st) as [st' [[]|e]]; cbn [fst snd] in *;
    [now apply IH | exact Hbody].
Qed.

Lemma close_current_ok st : (close_current st).2 = Ok tt.
Proof. now rewrite close_current_eq. Qed.

(** The final state and the outcome of [process_xml] in terms of the loop
    and the final close. *)
Lemma process_xml_state events wf st :
  (process_xml ts (Document events wf) st).1
  = closed (stream ts events wf (enter st)).1.
Proof.
  unfold process_xml, bind, modify, try_finally, get_state, ret.
  destruct (stream ts events wf (enter st)) as [st1 r]. cbn [fst snd].
  rewrite close_current_eq. now destruct r.
Qed.

Lemma process_xml_result events wf st :
  (process_xml ts (Document events wf) st).2
  = match (stream ts events wf (enter st)).2 with
    | Ok _ => Ok (processed_cards (stream ts events wf (enter st)).1)
    | Raise e => Raise e
    end.
Proof.
  unfold process_xml, bind, modify, try_finally, get_state, ret.
  destruct (stream ts events wf (enter st)) as [st1 r]. cbn [fst snd].
  rewrite close_current_eq. destruct r; cbn [fst snd]; [|reflexivity].
  now rewrite closed_processed_cards.
Qed.

Lemma stream_state events wf st :
  (stream ts events wf st).1 = (for_each events (process_event ts) st).1.
Proof.
  unfold stream, bind.
  destruct (for_each events (process_event ts) st) as [st1 [[]|e]];
    [now destruct wf | reflexivity].
Qed.

(** An invariant of the state kept by the entry, by every event and by the
    final close is kept by [process_xml]. *)
Lemma process_xml_inv (I : State -> Prop) input st :
  (forall st, I st -> I (enter st)) ->
  (forall e st, I st -> I (process_event ts e st).1) ->
  (forall st, I st -> I (closed st)) ->
  I st -> I (process_xml ts input st).1.
Proof.
  intros Henter Hevent Hclose HI. destruct input as [|events wf]; [exact HI|].
  rewrite process_xml_state, stream_state.
  apply Hclose, for_each_inv; auto.
Qed.

End RouteFacts.

(** ** The claims about extraction and the stream driver *)

Section RecordClaims.

Context {db : Str.Unicode} {buf : Buffering}.

(** C7. A record whose country cannot be resolved (no entity element, or
    an entity without the country-code attribute) increments the
    total-processed counter and changes nothing else: no statistic of any
    key, no sequence, no file on disk, no file operation, no file count. *)
Theorem C7_no_country_counted_not_routed ts elem st :
  Str.endswith (tag elem) "businesscard" = true ->
  (find_entity elem = None \/
   exists entity, find_entity elem = Some entity /\
                  get entity "countrycode" = None) ->
  let st' := (process_event ts elem st).1 in
  process_event ts elem st
    = (set_processed_cards (S (processed_cards st)) st, Ok tt) /\
  processed_cards st' = S (processed_cards st) /\
  stats st' = stats st /\ file_stats st' = file_stats st /\
  disk st' = disk st /\ io_trace st' = io_trace st /\
  file_count st' = file_count st /\
  current_file_handle st' = current_file_handle st.
Proof.
  intros Htag Hno st'.
  assert (extract_country elem = None) as Hc.
  { unfold extract_country. destruct Hno as [->|(entity & -> & ->)]; reflexivity. }
  assert (process_event ts elem st
          = (set_processed_cards (S (processed_cards st)) st, Ok tt)) as Heq.
  { apply process_event_unrouted; [exact Htag | now rewrite Hc]. }
  subst st'. rewrite Heq. repeat split.
Qed.

End RecordClaims.

Definition card_without_entity : Element :=
  mkElement "businesscard" [] None
    [mkElement "participant" [("scheme", "iso6523-actorid-upis")] None [] None]
    None.

Definition fresh_state (limit : Z) : State :=
  mkState limit ∅ ∅ 0 ∅ "" [] 0 None None.

Lemma C7_witness :
  processed_cards
    (process_event ET.tostring card_without_entity (fresh_state 1000000)).1 = 1
  /\ stats (process_event ET.tostring card_without_entity (fresh_state 1000000)).1
     = ∅.
Proof.
  pose proof (C7_no_country_counted_not_routed ET.tostring card_without_entity
                (fresh_state 1000000) eq_refl (or_introl eq_refl)) as H.
  cbv zeta in H. destruct H as (_ & H1 & H2 & _). split; [exact H1 | exact H2].
Defined.

Section DriverClaims.

Context {db : Str.Unicode} {buf : Buffering}.

(** C9. The stream driver takes an element for a record exactly when its
    tag string ends with "businesscard", whatever precedes the suffix (a
    namespace in braces, or unrelated letters as in "notabusinesscard"):
    such an element is counted and runs the record handler (extraction,
    then routing when the country is truthy); any other element leaves the
    state untouched. *)
Theorem C9_record_iff_tag_suffix ts elem st :
  ((exists pre, tag elem = pre +:+ "businesscard") ->
   processed_cards (process_event ts elem st).1 = S (processed_cards st) /\
   process_event ts elem st =
     (if truthy (extract_country elem)
      then route ts (default "" (extract_country elem)) (extract_date elem) elem
      else ret tt) (set_processed_cards (S (processed_cards st)) st)) /\
  ((~ exists pre, tag elem = pre +:+ "businesscard") ->
   process_event ts elem st = (st, Ok tt)).
Proof.
  split.
  - intros Hsuf. apply StrFacts.endswith_spec in Hsuf.
    assert (process_event ts elem st =
      (if truthy (extract_country elem)
       then route ts (default "" (extract_country elem)) (extract_date elem) elem
       else ret tt) (set_processed_cards (S (processed_cards st)) st)) as Heq.
    { unfold process_event. now rewrite Hsuf. }
    split; [|exact Heq]. rewrite Heq.
    destruct (truthy (extract_country elem)); [|reflexivity].
    now rewrite route_processed_cards.
  - intros Hno. unfold process_event.
    destruct (Str.endswith (tag elem) "businesscard") eqn:Hsuf; [|reflexivity].
    apply StrFacts.endswith_spec in Hsuf. contradiction.
Qed.

End DriverClaims.

Definition card_BE (body : list Element) : Element :=
  mkElement "businesscard" [] None
    [mkElement "entity" [("countrycode", "BE")] None body None] None.

Definition not_a_card : Element :=
  mkElement "notabusinesscard" [] None
    [mkElement "entity" [("countrycode", "BE")] None [] None] None.

Definition qualified_card : Element :=
  mkElement (qualified "businesscard") [] None
    [mkElement (qualified "entity") [("countrycode", "BE")] None [] None] None.

Lemma C9_witness :
  processed_cards (process_event ET.tostring not_a_card (fresh_state 1000000)).1 = 1
  /\ processed_cards
       (process_event ET.tostring qualified_card (fresh_state 1000000)).1 = 1
  /\ process_event ET.tostring
       (mkElement "participant" [] None [] None) (fresh_state 1000000)
     = (fresh_state 1000000, Ok tt).
Proof.
  split; [|split].
  - apply (C9_record_iff_tag_suffix ET.tostring not_a_card (fresh_state 1000000)).
    exists "nota". reflexivity.
  - apply (C9_record_iff_tag_suffix ET.tostring qualified_card (fresh_state 1000000)).
    exists ("{" +:+ NS +:+ "}"). reflexivity.
  - apply (C9_record_iff_tag_suffix ET.tostring).
    intros Hsuf. apply StrFacts.endswith_spec in Hsuf. discriminate Hsuf.
Defined.

Section EmptyCountryClaims.

Context {db : Str.Unicode} {buf : Buffering}.

(** C10. A record whose entity carries the country-code attribute with
    the empty string as value is handled exactly like a record without a
    country: [extract_country] returns the empty string, the guard takes it
    for false, the record is counted, and nothing else changes. *)
Theorem C10_empty_country_code_is_no_country ts elem entity st :
  Str.endswith (tag elem) "businesscard" = true ->
  find_entity elem = Some entity ->
  get entity "countrycode" = Some "" ->
  let st' := (process_event ts elem st).1 in
  extract_country elem = Some "" /\
  truthy (extract_country elem) = false /\
  process_event ts elem st
    = (set_processed_cards (S (processed_cards st)) st, Ok tt) /\
  processed_cards st' = S (processed_cards st) /\
  stats st' = stats st /\ file_stats st' = file_stats st /\
  disk st' = disk st /\ io_trace st' = io_trace st /\
  file_count st' = file_count st /\
  (forall other, Str.endswith (tag other) "businesscard" = true ->
     extract_country other = None ->
     process_event ts other st = process_event ts elem st).
Proof.
  intros Htag Hent Hcc st'.
  assert (extract_country elem = Some "") as Hc.
  { unfold extract_country. now rewrite Hent. }
  assert (process_event ts elem st
          = (set_processed_cards (S (processed_cards st)) st, Ok tt)) as Heq.
  { apply process_event_unrouted; [exact Htag | now rewrite Hc]. }
  subst st'. rewrite Heq, Hc. repeat split.
  intros other Hother Hnone. apply process_event_unrouted; [exact Hother|].
  now rewrite Hnone.
Qed.

End EmptyCountryClaims.

Definition card_empty_country : Element :=
  mkElement "businesscard" [] None
    [mkElement "entity" [("countrycode", "")] None
       [mkElement "name" [("name", "Foo Ltd")] None [] None] None] None.

Lemma C10_witness :
  extract_country card_empty_country = Some "" /\
  process_event ET.tostring card_empty_country (fresh_state 1000000)
  = (set_processed_cards 1 (fresh_state 1000000), Ok tt).
Proof.
  pose proof (C10_empty_country_code_is_no_country ET.tostring
    card_empty_country
    (mkElement "entity" [("countrycode", "")] None
       [mkElement "name" [("name", "Foo Ltd")] None [] None] None)
    (fresh_state 1000000) eq_refl eq_refl eq_refl) as H.
  cbv zeta in H. destruct H as (H1 & _ & H2 & _). split; [exact H1 | exact H2].
Defined.


(** ** Characters *)

Module CharFacts.
Import Str.

(** A character of [chars]: a byte followed by continuation bytes. *)
Definition char_shaped (ch : string) : bool :=
  match ch with
  | String _ rest => forallb continuation (list_ascii_of_string rest)
  | EmptyString => false
  end.

(** A list of characters as [chars] makes them: from the second on, none
    begins with a continuation byte. *)
Definition well_split (l : list string) : Prop :=
  Forall (fun ch => char_shaped ch = true) l /\
  Forall (fun ch => continues ch = false) (List.tl l).

Lemma chars_cons (c : ascii) (s : string) :
  chars (String c s)
  = match chars s with
    | ch :: rest =>
        if continues ch then String c ch :: rest else String c "" :: ch :: rest
    | [] => [String c ""]
    end.
Proof. reflexivity. Qed.

Lemma chars_well_split (s : string) : well_split (chars s).
Proof.
  induction s as [|c s [IH1 IH2]]; [split; constructor|].
  cbn [chars]. destruct (chars s) as [|ch rest]; [split; repeat constructor|].
  destruct (continues ch) eqn:Hc.
  - split; [|exact IH2]. inversion IH1 as [|? ? Hch Hrest]; subst.
    constructor; [|exact Hrest].
    destruct ch as [|c1 r1]; [discriminate|]. cbn in *. now rewrite Hc.
  - split; [constructor; [reflexivity | exact IH1]|].
    constructor; [exact Hc | exact IH2].
Qed.

Lemma chars_empty (s : string) : chars s = [] <-> s = "".
Proof.
  split; [|now intros ->]. destruct s as [|c s]; [reflexivity|].
  cbn [chars]. destruct (chars s) as [|ch rest]; [discriminate|].
  now destruct (continues ch).
Qed.

Lemma join_nonempty (ch : string) (l : list string) :
  ch <> "" -> join (ch :: l) <> "".
Proof. destruct ch; [congruence | discriminate]. Qed.

Lemma char_shaped_nonempty (ch : string) : char_shaped ch = true -> ch <> "".
Proof. destruct ch; [discriminate | congruence]. Qed.

(** A byte, a run of continuation bytes and a string that begins a new
    character. *)
Lemma chars_run (c : ascii) (r x : string) :
  forallb continuation (list_ascii_of_string r) = true ->
  match chars x with ch :: _ => continues ch = false | [] => True end ->
  chars (String c (r +:+ x)) = String c r :: chars x.
Proof.
  revert c. induction r as [|c1 r1 IH]; intros c Hr Hx.
  - rewrite StrFacts.app_nil_l, chars_cons.
    destruct (chars x) as [|ch rest]; [reflexivity|]. now rewrite Hx.
  - cbn in Hr. apply andb_true_iff in Hr as [Hc1 Hr1].
    rewrite StrFacts.app_cons, chars_cons, (IH c1 Hr1 Hx).
    cbn [continues]. now rewrite Hc1.
Qed.

(** Joining characters and splitting again gives the characters back. *)
Lemma chars_join (l : list string) : well_split l -> chars (join l) = l.
Proof.
  induction l as [|ch l IH]; intros [H1 H2]; [reflexivity|].
  inversion H1 as [|? ? Hch Hl]; subst. cbn [List.tl] in H2.
  assert (chars (join l) = l) as Hjoin.
  { apply IH. split; [exact Hl|]. destruct l; [constructor|].
    inversion H2; subst. assumption. }
  destruct ch as [|c r]; [discriminate|].
  change (join (String c r :: l)) with (String c (r +:+ join l)).
  rewrite chars_run; [now rewrite Hjoin | exact Hch |].
  rewrite Hjoin. destruct l; [exact I|]. now inversion H2.
Qed.

Lemma tl_filter_incl (p : string -> bool) (l : list string) (x : string) :
  In x (List.tl (List.filter p l)) -> In x (List.tl l).
Proof.
  induction l as [|a l IH]; [easy|]. cbn [List.filter List.tl].
  destruct (p a).
  - cbn [List.tl]. intros H. apply List.filter_In in H. tauto.
  - intros H. specialize (IH H). destruct l; [easy | now right].
Qed.

Lemma well_split_filter (p : string -> bool) (l : list string) :
  well_split l -> well_split (List.filter p l).
Proof.
  intros [H1 H2]. split.
  - apply List.Forall_forall. intros x Hx. apply List.filter_In in Hx as [Hx _].
    now apply (proj1 (List.Forall_forall _ _) H1).
  - apply List.Forall_forall. intros x Hx. apply tl_filter_incl in Hx.
    now apply (proj1 (List.Forall_forall _ _) H2).
Qed.

Lemma firstn_incl {A} (n : nat) (l : list A) (x : A) :
  In x (firstn n l) -> In x l.
Proof.
  revert l. induction n as [|n IH]; intros [|a l]; cbn; try easy.
  intros [->|H]; [now left | right; now apply IH].
Qed.

Lemma well_split_firstn (n : nat) (l : list string) :
  well_split l -> well_split (firstn n l).
Proof.
  intros [H1 H2]. split.
  - apply List.Forall_forall. intros x Hx. apply firstn_incl in Hx.
    now apply (proj1 (List.Forall_forall _ _) H1).
  - destruct n as [|n], l as [|a l]; cbn [firstn List.tl] in *; try constructor.
    apply List.Forall_forall. intros x Hx. apply firstn_incl in Hx.
    now apply (proj1 (List.Forall_forall _ _) H2).
Qed.

Section WithUnicode.

Context {db : Unicode}.

(** Filtering a string and slicing the result, in terms of the
    characters. *)
Lemma chars_str_filter (p : string -> bool) (s : string) :
  chars (str_filter p s) = List.filter p (chars s).
Proof. apply chars_join, well_split_filter, chars_well_split. Qed.

Lemma slice_to_str_filter (n : nat) (p : string -> bool) (s : string) :
  slice_to n (str_filter p s) = join (firstn n (List.filter p (chars s))).
Proof. unfold slice_to. now rewrite chars_str_filter. Qed.

End WithUnicode.

End CharFacts.

(** ** The fallback bucket *)

Section FallbackClaims.

Context {db : Str.Unicode} {buf : Buffering}.

(** The fallback bucket in the words of the specification: of the
    alphanumeric characters of the entity name, the first five, each in
    upper case, after "2000-"; without a name, or without any alphanumeric
    character in it, the bucket is "2000-UNKNOWN". *)
Definition spec_bucket (entity_name : option string) : string :=
  match entity_name with
  | Some name =>
      match List.filter Str.isalnum (Str.chars name) with
      | [] => "2000-UNKNOWN"
      | alnum => "2000-" +:+ Str.join (map Str.upper (firstn 5 alnum))
      end
  | None => "2000-UNKNOWN"
  end.

(** The characters of a literal. *)
Ltac eval_chars :=
  match goal with
  | |- context [Str.chars ?s] =>
      let l := eval vm_compute in (Str.chars s) in
      change (Str.chars s) with l
  end.

Ltac eval_isalnum :=
  repeat match goal with
         | |- context [Str.ascii_isalnum ?c] =>
             let b := eval vm_compute in (Str.ascii_isalnum c) in
             change (Str.ascii_isalnum c) with b
         end.

Lemma fallback_date_spec elem :
  fallback_date elem = spec_bucket (extract_entity_name elem).
Proof.
  unfold fallback_date, spec_bucket.
  destruct (extract_entity_name elem) as [name|]; [|reflexivity].
  destruct (Str.nonempty name) eqn:Hname.
  - unfold Str.str_upper. rewrite CharFacts.slice_to_str_filter.
    pose proof (CharFacts.well_split_filter Str.isalnum _
                  (CharFacts.chars_well_split name)) as Hws.
    destruct (List.filter Str.isalnum (Str.chars name)) as [|ch alnum] eqn:Hf;
      [reflexivity|].
    assert (CharFacts.well_split (firstn 5 (ch :: alnum))) as Hws5
      by now apply CharFacts.well_split_firstn.
    rewrite (CharFacts.chars_join _ Hws5). cbn [firstn map].
    assert (ch <> "") as Hch.
    { destruct Hws as [H1 _]. inversion H1; subst.
      now apply CharFacts.char_shaped_nonempty. }
    pose proof (Str.upper_nonempty ch Hch) as Hup.
    destruct (Str.upper ch) as [|c u] eqn:Hu; [congruence|]. reflexivity.
  - apply StrFacts.nonempty_false in Hname. subst name. reflexivity.
Qed.

(** C6. For a record with a country and no extractable date, the date
    statistic that is incremented is the bucket "2000-" followed by the
    first five alphanumeric characters of the entity name, each in upper
    case (filter, then truncate, then uppercase, whatever the upper-case
    mapping does to the length), or "2000-UNKNOWN" when the name is absent
    or has no alphanumeric character; "Acme5 Corp!" gives "2000-ACME5" and
    "!!!" gives "2000-UNKNOWN". *)
Theorem C6_fallback_bucket ts elem st country :
  Str.endswith (tag elem) "businesscard" = true ->
  extract_country elem = Some country -> country <> "" ->
  extract_date elem = None ->
  let bucket := spec_bucket (extract_entity_name elem) in
  let st' := (process_event ts elem st).1 in
  fallback_date elem = bucket /\
  stats st' !! ("date_" +:+ bucket)
    = Some (S (default 0 (stats st !! ("date_" +:+ bucket)))) /\
  (extract_entity_name elem = Some "Acme5 Corp!" -> bucket = "2000-ACME5") /\
  (extract_entity_name elem = Some "!!!" \/ extract_entity_name elem = None ->
   bucket = "2000-UNKNOWN").
Proof.
  intros Htag Hc Hne Hd bucket st'. split; [apply fallback_date_spec|].
  split; [|split].
  - subst st'. rewrite (process_event_routed _ _ _ _ Htag Hc Hne), route_stats.
    rewrite Hd. unfold route_date. cbn [truthy]. rewrite fallback_date_spec.
    fold bucket. now rewrite lookup_insert_eq.
  - intros Hn. subst bucket. rewrite Hn. unfold spec_bucket.
    eval_chars. cbn [List.filter].
    rewrite !Str.isalnum_ascii by (vm_compute; lia). eval_isalnum.
    cbn [List.filter firstn map Str.join fold_right].
    rewrite !Str.upper_ascii by (vm_compute; lia). reflexivity.
  - intros [Hn|Hn]; subst bucket; rewrite Hn; [|reflexivity].
    unfold spec_bucket. eval_chars. cbn [List.filter].
    rewrite !Str.isalnum_ascii by (vm_compute; lia). eval_isalnum.
    reflexivity.
Qed.

End FallbackClaims.

Definition card_named (name : string) : Element :=
  card_BE [mkElement "name" [("name", name)] None [] None].

(** The name "straße", whose last letter has the upper case "SS". *)
Definition strasse : string := "stra" +:+ Sample.sharp_s +:+ "e".

Lemma C6_witness :
  fallback_date (card_named "Acme5 Corp!") = "2000-ACME5" /\
  stats (process_event ET.tostring (card_named "Acme5 Corp!")
           (fresh_state 1000000)).1 !! "date_2000-ACME5" = Some 1 /\
  fallback_date (card_named "!!!") = "2000-UNKNOWN" /\
  fallback_date (card_named strasse) = "2000-STRASS" /\
  fallback_date (card_named (Sample.E_ACUTE +:+ "clair Co"))
  = "2000-" +:+ Sample.E_ACUTE +:+ "CLAI".
Proof.
  pose proof (C6_fallback_bucket ET.tostring (card_named "Acme5 Corp!")
    (fresh_state 1000000) "BE" eq_refl eq_refl ltac:(discriminate) eq_refl) as H.
  pose proof (C6_fallback_bucket ET.tostring (card_named "!!!")
    (fresh_state 1000000) "BE" eq_refl eq_refl ltac:(discriminate) eq_refl) as H'.
  pose proof (C6_fallback_bucket ET.tostring (card_named strasse)
    (fresh_state 1000000) "BE" eq_refl eq_refl ltac:(discriminate) eq_refl) as Hs.
  pose proof (C6_fallback_bucket ET.tostring
    (card_named (Sample.E_ACUTE +:+ "clair Co"))
    (fresh_state 1000000) "BE" eq_refl eq_refl ltac:(discriminate) eq_refl) as He.
  cbv zeta in H, H', Hs, He.
  destruct H as (H1 & H2 & _). destruct H' as (H3 & _).
  destruct Hs as (H4 & _). destruct He as (H5 & _).
  split; [exact H1 | split; [exact H2 | split; [exact H3|split]]].
  - exact H4.
  - exact H5.
Defined.

(** ** Artifact paths of one country are pairwise distinct *)

Module PathFacts.

(** Reading a decimal numeral back, leading zeros included. *)
Definition read (s : string) : nat :=
  match NilEmpty.uint_of_string s with
  | Some d => Nat.of_uint d
  | None => 0
  end.

Lemma read_zero (s : string) : read (String "0" s) = read s.
Proof.
  unfold read. cbn [NilEmpty.uint_of_string].
  destruct (NilEmpty.uint_of_string s) as [d|]; reflexivity.
Qed.

Lemma read_zeros (k : nat) (s : string) : read (Str.zeros k +:+ s) = read s.
Proof.
  induction k as [|k IH]; [reflexivity|].
  change (Str.zeros (S k) +:+ s) with (String "0" (Str.zeros k +:+ s)).
  now rewrite read_zero.
Qed.

Lemma read_format (n : nat) : read (Str.format_06d n) = n.
Proof.
  unfold Str.format_06d. rewrite read_zeros.
  rewrite <- (Unsigned.of_to n) at 2.
  destruct (Nat.to_uint n) as [| | | | | | | | | |] eqn:E; [reflexivity|..];
    unfold read; cbn [NilZero.string_of_uint];
    rewrite <- E; now rewrite NilEmpty.usu.
Qed.

Lemma format_06d_inj (n m : nat) : Str.format_06d n = Str.format_06d m -> n = m.
Proof. intros H. rewrite <- (read_format n), <- (read_format m). now rewrite H. Qed.

Lemma artifact_path_inj (c : string) (n m : nat) :
  artifact_path c n = artifact_path c m -> n = m.
Proof.
  unfold artifact_path. intros H.
  apply (inj (String.app (country_dir c))) in H.
  apply (inj (String.app "business-cards.")) in H.
  apply StrFacts.app_inv_tail in H. now apply format_06d_inj.
Qed.

End PathFacts.

(** ** Rollover *)

Section RolloverClaims.

Context {db : Str.Unicode} {buf : Buffering}.

(** The sequence of the record's country after a routed event. *)
Lemma process_event_sequence ts elem st country :
  Str.endswith (tag elem) "businesscard" = true ->
  extract_country elem = Some country -> country <> "" ->
  file_stats (process_event ts elem st).1 !! country
  = Some (route_sequence_of st country).
Proof.
  intros Htag Hc Hne. rewrite (process_event_routed _ _ _ _ Htag Hc Hne).
  rewrite route_sequence. unfold route_sequence_of.
  rewrite set_processed_cards_file_stats.
  now erewrite (oversized_ext _ st) by reflexivity.
Qed.

(** C3. For a record with a country, the country's sequence after the
    record is one more than before exactly when a file exists at the
    artifact path of the current sequence and its size on disk exceeds the
    maximum, and is unchanged exactly when not: the test is made once, so
    the sequence never moves by more than one in a record.  The test reads
    the file as it is on the disk when the record arrives, whatever the
    handle still holds in its buffer: for a fresh country whose first
    candidate is an oversized file left by an earlier run (and is not the
    artifact now open), the sequence becomes 2, the oversized file is left
    as it is, and the artifact then open is the one of sequence 2. *)
Theorem C3_rollover_iff_existing_oversized ts elem st country :
  Str.endswith (tag elem) "businesscard" = true ->
  extract_country elem = Some country -> country <> "" ->
  let seq0 := default 1 (file_stats st !! country) in
  let candidate := artifact_path country seq0 in
  let existing_oversized :=
    exists data, disk st !! candidate = Some data /\
                 (Z.of_nat (String.length data) > max_bytes st)%Z in
  let st' := (process_event ts elem st).1 in
  (file_stats st' !! country = Some (S seq0) <-> existing_oversized) /\
  (file_stats st' !! country = Some seq0 <-> ~ existing_oversized) /\
  (file_stats st !! country = None -> existing_oversized ->
   current_file_path st = current_file_handle st ->
   current_file_handle st <> Some (artifact_path country 1) ->
   file_stats st' !! country = Some 2 /\
   disk st' !! artifact_path country 1 = disk st !! artifact_path country 1 /\
   current_file_handle st' = Some (artifact_path country 2)).
Proof.
  intros Htag Hc Hne seq0 candidate existing_oversized st'.
  assert (file_stats st' !! country = Some (route_sequence_of st country)) as Hseq
    by now apply process_event_sequence.
  assert (oversized st candidate = true <-> existing_oversized) as Hov
    by apply oversized_spec.
  unfold route_sequence_of in Hseq. fold seq0 candidate in Hseq.
  split; [|split].
  - rewrite Hseq, <- Hov. destruct (oversized st candidate); split; intros H;
      try reflexivity; try discriminate. injection H; lia.
  - rewrite Hseq, <- Hov. destruct (oversized st candidate); split; intros H;
      try reflexivity; try congruence. injection H; lia.
  - intros Hfresh Hex Hinv Hcur. apply Hov in Hex.
    subst seq0 candidate. rewrite Hfresh in *. cbn [default from_option id] in Hex, Hseq.
    rewrite Hex in Hseq. split; [exact Hseq|].
    subst st'. rewrite (process_event_routed _ _ _ _ Htag Hc Hne).
    assert (route_path (set_processed_cards (S (processed_cards st)) st) country
            = artifact_path country 2) as Hp.
    { unfold route_path, route_sequence_of.
      rewrite set_processed_cards_file_stats, Hfresh. cbn [default from_option id].
      erewrite (oversized_ext _ st) by reflexivity. now rewrite Hex. }
    split.
    + rewrite route_disk_other; [reflexivity| |exact Hcur].
      rewrite Hp. intros Heq. apply PathFacts.artifact_path_inj in Heq. discriminate.
    + rewrite route_handle by exact Hinv. now rewrite Hp.
Qed.

End RolloverClaims.

Definition oversized_disk : gmap string string :=
  {[ artifact_path "BE" 1 := "0123456789abcdef" ]}.

Lemma C3_witness :
  file_stats
    (process_event ET.tostring (card_BE [])
       (set_disk oversized_disk (fresh_state 10))).1 !! "BE" = Some 2 /\
  disk
    (process_event ET.tostring (card_BE [])
       (set_disk oversized_disk (fresh_state 10))).1 !! artifact_path "BE" 1
  = Some "0123456789abcdef".
Proof.
  pose proof (C3_rollover_iff_existing_oversized ET.tostring (card_BE [])
    (set_disk oversized_disk (fresh_state 10)) "BE"
    eq_refl eq_refl ltac:(discriminate)) as H.
  cbv zeta in H. destruct H as (_ & _ & H).
  destruct H as (H1 & H2 & _).
  - reflexivity.
  - exists "0123456789abcdef". split; [reflexivity | reflexivity].
  - reflexivity.
  - discriminate.
  - split; [exact H1 | exact H2].
Defined.

(** ** The sequence of a country over a run *)

(** How the sequence entry of one country may move in one step. *)
Inductive seq_step : option nat -> option nat -> Prop :=
  | seq_same (x : option nat) : seq_step x x
  | seq_incr (n : nat) : seq_step (Some n) (Some (S n))
  | seq_created : seq_step None (Some 1)
  | seq_created_incr : seq_step None (Some 2).

(** An entry is kept, and its sequence does not decrease. *)
Definition seq_le (x y : option nat) : Prop :=
  match x, y with
  | None, _ => True
  | Some n, Some m => n <= m
  | Some _, None => False
  end.

(** Every sequence below the current one has its artifact on disk. *)
Definition contiguous (st : State) : Prop :=
  forall c n, file_stats st !! c = Some n ->
    1 <= n /\ forall k, 1 <= k < n -> is_Some (disk st !! artifact_path c k).

Lemma seq_step_le x y : seq_step x y -> seq_le x y.
Proof. destruct 1 as [[n|]| | |]; cbn; lia. Qed.

Lemma seq_le_trans x y z : seq_le x y -> seq_le y z -> seq_le x z.
Proof. destruct x, y, z; cbn; try tauto; lia. Qed.

Lemma seq_le_refl x : seq_le x x.
Proof. destruct x; cbn; lia. Qed.

Section SequenceClaims.

Context {db : Str.Unicode} {buf : Buffering}.

Variable ts : Element -> string.

Lemma process_event_seq_step elem st c :
  seq_step (file_stats st !! c) (file_stats (process_event ts elem st).1 !! c).
Proof.
  apply (process_event_elim ts
    (fun r => seq_step (file_stats st !! c) (file_stats r.1 !! c))).
  - constructor.
  - intros _ _. constructor.
  - intros country Htag Hcountry Hne.
    rewrite <- (process_event_routed _ _ _ _ Htag Hcountry Hne).
    destruct (decide (c = country)) as [->|Hc].
    + rewrite (process_event_sequence _ _ _ _ Htag Hcountry Hne).
      unfold route_sequence_of.
      destruct (file_stats st !! country) as [n|]; cbn [default from_option id];
        destruct (oversized st _); constructor.
    + rewrite (process_event_routed _ _ _ _ Htag Hcountry Hne).
      rewrite route_file_stats_other by exact Hc.
      rewrite set_processed_cards_file_stats. constructor.
Qed.

Lemma process_event_disk_dom elem st q :
  is_Some (disk st !! q) -> is_Some (disk (process_event ts elem st).1 !! q).
Proof.
  intros Hq.
  apply (process_event_elim ts (fun r => is_Some (disk r.1 !! q))); auto.
  intros country _ _ _. now apply route_disk_dom.
Qed.

Lemma route_contiguous c d e st :
  contiguous st -> contiguous (route ts c d e st).1.
Proof.
  intros Hst c' n Hn.
  assert (forall m, file_stats st !! c' = Some m ->
            (forall k, 1 <= k < m ->
               is_Some (disk (route ts c d e st).1 !! artifact_path c' k)))
    as Hold.
  { intros m Hm k Hk. apply route_disk_dom. now apply (Hst c' m). }
  destruct (decide (c' = c)) as [->|Hne].
  - rewrite route_sequence in Hn. injection Hn as <-.
    unfold route_sequence_of.
    destruct (file_stats st !! c) as [m|] eqn:Hm; cbn [default from_option id].
    + destruct (Hst _ _ Hm) as [Hpos _].
      destruct (oversized st _) eqn:Hov.
      * split; [lia|]. intros k Hk. destruct (decide (k = m)) as [->|].
        -- apply route_disk_dom.
           apply oversized_spec in Hov as (data & -> & _). eauto.
        -- apply (Hold m eq_refl). lia.
      * split; [lia|]. now apply Hold.
    + destruct (oversized st _) eqn:Hov.
      * split; [lia|]. intros k Hk. replace k with 1 by lia.
        apply route_disk_dom.
        apply oversized_spec in Hov as (data & -> & _). eauto.
      * split; [lia|]. intros k Hk. lia.
  - rewrite route_file_stats_other in Hn by exact Hne.
    split; [now apply (Hst c' n)|]. now apply Hold.
Qed.

Lemma process_event_contiguous elem st :
  contiguous st -> contiguous (process_event ts elem st).1.
Proof.
  intros Hst.
  assert (contiguous (set_processed_cards (S (processed_cards st)) st)) as Hst1.
  { intros c n Hn. rewrite set_processed_cards_file_stats in Hn.
    rewrite set_processed_cards_disk. now apply Hst. }
  apply (process_event_elim ts (fun r => contiguous r.1)).
  - intros _. exact Hst.
  - intros _ _. exact Hst1.
  - intros country _ _ _. now apply route_contiguous.
Qed.

Lemma process_xml_seq_le input st c :
  seq_le (file_stats st !! c) (file_stats (process_xml ts input st).1 !! c).
Proof.
  apply (process_xml_inv ts
    (fun st' => seq_le (file_stats st !! c) (file_stats st' !! c))).
  - intros st0 H. exact H.
  - intros e st0 H.
    eapply seq_le_trans; [exact H|]. apply seq_step_le, process_event_seq_step.
  - intros st0 H. now rewrite closed_file_stats.
  - apply seq_le_refl.
Qed.

Lemma process_xml_contiguous input st :
  contiguous st -> contiguous (process_xml ts input st).1.
Proof.
  apply (process_xml_inv ts contiguous input st).
  - intros st0 H. exact H.
  - intros e st0. apply process_event_contiguous.
  - intros st0 H c n Hn. rewrite closed_file_stats in Hn.
    destruct (H c n Hn) as [H1 H2]. split; [exact H1|].
    intros k Hk. apply closed_disk_dom. now apply H2.
Qed.


End SequenceClaims.

Definition two_cards : Input :=
  Document [card_BE []; card_BE []] true.


(** The same run on a platform without a buffer: the artifact of sequence
    2 is already over the maximum on the disk when the second record
    arrives, and the country rolls over once more. *)
Example rollover_depends_on_buffering :
  file_stats
    (@process_xml Sample.unicode Sample.write_through ET.tostring two_cards
       (set_disk oversized_disk (fresh_state 10))).1 !! "BE" = Some 3 /\
  file_stats
    (@process_xml Sample.unicode Sample.buffering ET.tostring two_cards
       (set_disk oversized_disk (fresh_state 10))).1 !! "BE" = Some 2.
Proof. vm_compute. split; reflexivity. Qed.

(** ** Reopening an artifact *)

(** C2, as the code has it.  The reopen step never inspects the bytes it
    cuts and raises nothing of its own.  Whatever the last eight bytes of
    an existing file of at least eight bytes are, the reopen succeeds and
    the file loses them: when they are the closing tag, what is left is the
    content before the tag, and the next write lands after it.  Only a file
    of fewer than eight bytes makes the reopen fail, with the [ValueError]
    of the negative seek, and it is left as it is. *)
Theorem C2_reopen_cuts_last_eight_bytes path data st :
  disk st !! path = Some data ->
  let st' := (reopen_artifact path st).1 in
  (8 <= String.length data ->
   (reopen_artifact path st).2 = Ok tt /\
   disk st' !! path = Some (Str.take (String.length data - 8) data) /\
   (forall body, data = body +:+ CLOSING_TAG -> disk st' !! path = Some body) /\
   io_trace st' = io_trace st ++ [IoOpen path ModeRPlus;
                                 IoTruncate path (String.length data - 8)]) /\
  (String.length data < 8 ->
   (reopen_artifact path st).2 = Raise ValueError /\
   disk st' = disk st /\
   io_trace st' = io_trace st ++ [IoOpen path ModeRPlus]) /\
  (forall q, q <> path -> disk st' !! q = disk st !! q) /\
  current_file_handle st' = Some path /\ buffer st' = "".
Proof.
  intros Hdata st'.
  assert (content st path = data) as Hc by (unfold content; now rewrite Hdata).
  destruct (Nat.le_gt_cases 8 (String.length data)) as [Hlen|Hlen].
  - subst st'. rewrite reopen_artifact_long by now rewrite Hc. cbn [fst snd].
    rewrite reopened_disk, reopened_trace, reopened_handle, reopened_buffer, Hc.
    split; [|split; [intros; lia|split; [|split; reflexivity]]].
    + intros _. split; [reflexivity|]. split; [apply lookup_insert_eq|].
      split; [|reflexivity].
      intros body ->. rewrite lookup_insert_eq. f_equal.
      rewrite StrFacts.length_app, length_CLOSING_TAG.
      replace (String.length body + 8 - 8) with (String.length body) by lia.
      apply StrFacts.take_app.
    + intros q Hq. now rewrite lookup_insert_ne.
  - subst st'. rewrite reopen_artifact_short by now rewrite Hc. cbn [fst snd].
    rewrite reopening_disk, reopening_trace, reopening_handle, reopening_buffer.
    split; [intros; lia|]. repeat split; reflexivity.
Qed.

Definition closed_artifact : string :=
  XML_DECLARATION +:+ ROOT_OPEN +:+ "  <businesscard />" +:+ Str.nl +:+ CLOSING_TAG.

Lemma C2_witness :
  disk (reopen_artifact (artifact_path "BE" 1)
          (set_disk {[ artifact_path "BE" 1 := closed_artifact ]}
             (fresh_state 1000000))).1 !! artifact_path "BE" 1
  = Some (XML_DECLARATION +:+ ROOT_OPEN +:+ "  <businesscard />" +:+ Str.nl).
Proof.
  pose proof (C2_reopen_cuts_last_eight_bytes (artifact_path "BE" 1)
    closed_artifact
    (set_disk {[ artifact_path "BE" 1 := closed_artifact ]} (fresh_state 1000000))
    eq_refl) as H.
  cbv zeta in H. destruct H as (H & _).
  destruct H as (_ & _ & H & _); [vm_compute; lia|].
  apply (H (XML_DECLARATION +:+ ROOT_OPEN +:+ "  <businesscard />" +:+ Str.nl)).
  reflexivity.
Defined.

(** An artifact cut short in the middle of a record by an interrupted
    run. *)
Definition torn_artifact : string :=
  XML_DECLARATION +:+ ROOT_OPEN +:+ "  <businesscard><entity countrycode=".

(** C2, counterexample: the file does not end with the closing tag, and yet
    the reopen raises nothing and cuts the last eight bytes of the torn
    record; the run that routes one record to the file returns normally and
    leaves the record after what is left of the torn one. *)
Lemma C2_counterexample :
  let path := artifact_path "BE" 1 in
  let st := set_disk {[ path := torn_artifact ]} (fresh_state 1000000) in
  let run := process_xml ET.tostring (Document [card_BE []] true) st in
  Str.endswith torn_artifact CLOSING_TAG = false /\
  (reopen_artifact path st).2 = Ok tt /\
  disk (reopen_artifact path st).1 !! path
  = Some (XML_DECLARATION +:+ ROOT_OPEN +:+ "  <businesscard><entity coun") /\
  run.2 = Ok 1 /\
  disk run.1 !! path
  = Some (XML_DECLARATION +:+ ROOT_OPEN +:+ "  <businesscard><entity coun" +:+
          "  <businesscard><entity countrycode=" +:+ Str.dq +:+ "BE" +:+ Str.dq
          +:+ " /></businesscard>" +:+ Str.nl +:+ CLOSING_TAG).
Proof. vm_compute. repeat split. Qed.

(** ** Deleting the namespace literals *)

Module ReplaceFacts.
Import Str.

Lemma subseq_refl s : subseq s s.
Proof. induction s; constructor; assumption. Qed.

Lemma subseq_trans a b c : subseq a b -> subseq b c -> subseq a c.
Proof.
  intros Hab Hbc. revert a Hab.
  induction Hbc as [|x b c Hbc IH|x b c Hbc IH]; intros a Hab.
  - exact Hab.
  - inversion Hab; subst; constructor; auto.
  - constructor. auto.
Qed.

Lemma subseq_length a b : subseq a b -> String.length a <= String.length b.
Proof. induction 1; simpl; lia. Qed.

Lemma subseq_same_length a b :
  subseq a b -> String.length a = String.length b -> a = b.
Proof.
  induction 1 as [|x a b H IH|x a b H IH]; simpl; intros Hl.
  - reflexivity.
  - f_equal. apply IH. lia.
  - apply subseq_length in H. lia.
Qed.

(** Deleting every match only deletes characters. *)
Lemma replace_from_subseq old skip s : subseq (replace_from old "" skip s) s.
Proof.
  revert skip. induction s as [|c s IH]; intros skip; [constructor|].
  cbn [replace_from]. destruct skip as [|k].
  - destruct (startswith old (String c s)).
    + rewrite StrFacts.app_nil_l. constructor. apply IH.
    + constructor. apply IH.
  - constructor. apply IH.
Qed.

Lemma replace_subseq old s : subseq (replace old "" s) s.
Proof. apply replace_from_subseq. Qed.

(** Without a match the string is returned as it is. *)
Lemma replace_absent old new s : occurs old s = false -> replace old new s = s.
Proof.
  unfold replace. induction s as [|c s IH]; intros H; [reflexivity|].
  cbn [occurs] in H. apply orb_false_iff in H as [H1 H2].
  cbn [replace_from]. rewrite H1. f_equal. now apply IH.
Qed.

(** With a match the result is strictly shorter. *)
Lemma replace_from_length old skip s :
  String.length (replace_from old "" skip s) + Nat.min skip (String.length s)
  <= String.length s.
Proof.
  revert skip. induction s as [|c s IH]; intros skip; [simpl; lia|].
  cbn [replace_from]. destruct skip as [|k].
  - destruct (startswith old (String c s)).
    + rewrite StrFacts.app_nil_l. specialize (IH (String.length old - 1)). simpl. lia.
    + specialize (IH 0). simpl in *. lia.
  - specialize (IH k). simpl. lia.
Qed.

Lemma replace_present_shorter old s :
  occurs old s = true -> old <> "" ->
  String.length (replace old "" s) < String.length s.
Proof.
  unfold replace. intros H Hne.
  induction s as [|c s IH].
  - destruct old; [congruence | discriminate H].
  - cbn [occurs] in H. cbn [replace_from].
    destruct (startswith old (String c s)) eqn:Hs.
    + rewrite StrFacts.app_nil_l.
      pose proof (replace_from_length old (String.length old - 1) s). simpl. lia.
    + cbn in H. specialize (IH H). simpl. lia.
Qed.

End ReplaceFacts.

Lemma strip_namespaces_subseq s : Str.subseq (strip_namespaces s) s.
Proof.
  unfold strip_namespaces.
  eapply ReplaceFacts.subseq_trans; [apply ReplaceFacts.replace_subseq|].
  eapply ReplaceFacts.subseq_trans; apply ReplaceFacts.replace_subseq.
Qed.

Lemma strip_namespaces_absent s :
  Str.occurs XMLNS_NS0 s = false -> Str.occurs XMLNS_DEFAULT s = false ->
  Str.occurs NS0_PREFIX s = false -> strip_namespaces s = s.
Proof.
  intros H1 H2 H3. unfold strip_namespaces.
  now rewrite (ReplaceFacts.replace_absent _ _ _ H1),
    (ReplaceFacts.replace_absent _ _ _ H2), (ReplaceFacts.replace_absent _ _ _ H3).
Qed.


(** A record without any namespace whose entity name contains the letters
    of the prefix. *)
Definition card_prefix_in_name : Element :=
  card_named "nns0:s0:Corp".

Definition card_plain : Element := card_named "Plain Corp".



(** ** The protocol of the output handles *)

(** What is open: nothing, or the artifact [path]; [tagged] tells that the
    last operation on it wrote the closing tag. *)
Inductive handle_state :=
  | NoneOpen
  | Open (path : string) (tagged : bool).

(** One file operation: an artifact is opened only when none is open;
    writes, truncations and the close go to the open artifact; it is closed
    only right after the closing tag was written to it. *)
Definition step (s : handle_state) (ev : io_event) : option handle_state :=
  match s, ev with
  | NoneOpen, IoOpen p _ => Some (Open p false)
  | Open h _, IoWrite p d =>
      if String.eqb p h then Some (Open h (String.eqb d CLOSING_TAG)) else None
  | Open h _, IoTruncate p _ =>
      if String.eqb p h then Some (Open h false) else None
  | Open h tagged, IoClose p =>
      if String.eqb p h && tagged then Some NoneOpen else None
  | _, _ => None
  end.

Fixpoint run (s : handle_state) (t : list io_event) : option handle_state :=
  match t with
  | [] => Some s
  | ev :: t' =>
      match step s ev with
      | Some s' => run s' t'
      | None => None
      end
  end.

Fixpoint remove_first (p : string) (l : list string) : list string :=
  match l with
  | [] => []
  | q :: l' => if String.eqb p q then l' else q :: remove_first p l'
  end.

(** The handles opened and not yet closed, in the order of their
    opening. *)
Definition open_handles_from (hs : list string) (t : list io_event)
    : list string :=
  fold_left (fun hs ev =>
               match ev with
               | IoOpen p _ => hs ++ [p]
               | IoClose p => remove_first p hs
               | _ => hs
               end) t hs.

Definition open_handles (t : list io_event) : list string :=
  open_handles_from [] t.

Definition handles_of (s : handle_state) : list string :=
  match s with NoneOpen => [] | Open h _ => [h] end.

(** The path was opened in the trace. *)
Definition opened (t : list io_event) (p : string) : Prop :=
  exists m, In (IoOpen p m) t.

(** The file ends with the closing tag. *)
Definition sealed (st : State) (p : string) : Prop :=
  exists body, disk st !! p = Some (body +:+ CLOSING_TAG).

Definition state_of (cur : option string) (s : handle_state) : Prop :=
  match cur, s with
  | None, NoneOpen => True
  | Some h, Open h' _ => h = h'
  | _, _ => False
  end.

(** The trace followed the protocol and left [cur] open, and every other
    artifact opened so far ends with the closing tag. *)
Definition tracked (st : State) (cur : option string) : Prop :=
  (exists s, run NoneOpen (io_trace st) = Some s /\ state_of cur s) /\
  (forall p, opened (io_trace st) p -> cur <> Some p -> sealed st p).

Module Protocol.

Lemma run_app s t1 t2 :
  run s (t1 ++ t2)
  = match run s t1 with Some s' => run s' t2 | None => None end.
Proof.
  revert s. induction t1 as [|ev t1 IH]; intros s; [reflexivity|].
  cbn [app run]. destruct (step s ev); [apply IH | reflexivity].
Qed.

Lemma run_prefix s t1 t2 s' :
  run s (t1 ++ t2) = Some s' ->
  exists s1, run s t1 = Some s1 /\ run s1 t2 = Some s'.
Proof. rewrite run_app. destruct (run s t1) as [s1|]; [eauto | discriminate]. Qed.

Lemma step_open_handles s ev s' :
  step s ev = Some s' ->
  open_handles_from (handles_of s) [ev] = handles_of s'.
Proof.
  destruct s as [|h b], ev as [p m|p d|p n|p]; cbn; try discriminate.
  - now intros [= <-].
  - destruct (String.eqb p h); [now intros [= <-] | discriminate].
  - destruct (String.eqb p h); [now intros [= <-] | discriminate].
  - destruct (String.eqb p h); cbn; [|discriminate].
    destruct b; [now intros [= <-] | discriminate].
Qed.

Lemma run_open_handles s t s' :
  run s t = Some s' -> open_handles_from (handles_of s) t = handles_of s'.
Proof.
  revert s. induction t as [|ev t IH]; intros s; [now intros [= <-]|].
  cbn [run]. destruct (step s ev) as [s1|] eqn:Hstep; [|discriminate].
  intros Hrun. apply step_open_handles in Hstep.
  change (open_handles_from (open_handles_from (handles_of s) [ev]) t
          = handles_of s').
  rewrite Hstep. now apply IH.
Qed.

(** At most one handle is open after any prefix of a trace that follows
    the protocol. *)
Lemma run_single t s t1 t2 :
  run NoneOpen t = Some s -> t = t1 ++ t2 -> length (open_handles t1) <= 1.
Proof.
  intros Hrun ->. apply run_prefix in Hrun as (s1 & H1 & _).
  unfold open_handles. change [] with (handles_of NoneOpen).
  rewrite (run_open_handles _ _ _ H1). destruct s1; cbn; lia.
Qed.

(** A trace that leaves nothing open is empty or ends with the closing
    tag and the close. *)
Lemma run_closed_end t :
  run NoneOpen t = Some NoneOpen ->
  t = [] \/ exists t0 q, t = t0 ++ [IoWrite q CLOSING_TAG; IoClose q].
Proof.
  induction t as [|ev0 t _] using rev_ind; [now left|].
  intros Hrun. right. apply run_prefix in Hrun as (s1 & H1 & Hlast).
  cbn in Hlast. destruct (step s1 ev0) as [s2|] eqn:Hstep; [|discriminate].
  injection Hlast as ->.
  destruct s1 as [|h b]; [destruct ev0; discriminate|].
  destruct ev0 as [p m|p d|p n|p]; cbn in Hstep; try discriminate;
    try (destruct (String.eqb p h); discriminate).
  destruct (String.eqb p h) eqn:Hp; [|discriminate]. apply String.eqb_eq in Hp.
  destruct b; [|discriminate]. subst p.
  induction t as [|ev1 t1 _] using rev_ind; [discriminate|].
  apply run_prefix in H1 as (s0 & H0 & Hlast).
  cbn in Hlast. destruct (step s0 ev1) as [s2|] eqn:Hstep1; [|discriminate].
  injection Hlast as ->.
  destruct s0 as [|h0 b0], ev1 as [p m|p d|p n|p]; cbn in Hstep1;
    try discriminate.
  - destruct (String.eqb p h0) eqn:Hp; [|discriminate].
    apply String.eqb_eq in Hp. injection Hstep1 as -> Hd.
    apply String.eqb_eq in Hd. subst. exists t1, h.
    now rewrite <- app_assoc.
  - destruct (String.eqb p h0); discriminate.
  - destruct (String.eqb p h0 && b0); discriminate.
Qed.

Lemma run_before_open t1 p m t2 s :
  run NoneOpen (t1 ++ IoOpen p m :: t2) = Some s -> run NoneOpen t1 = Some NoneOpen.
Proof.
  intros Hrun. apply run_prefix in Hrun as (s1 & H1 & H2).
  cbn [run] in H2. destruct (step s1 (IoOpen p m)) as [s2|] eqn:Hstep;
    [|discriminate].
  destruct s1; [exact H1 | discriminate].
Qed.

Lemma run_before_write t1 p d t2 s :
  run NoneOpen (t1 ++ IoWrite p d :: t2) = Some s ->
  exists b, run NoneOpen t1 = Some (Open p b).
Proof.
  intros Hrun. apply run_prefix in Hrun as (s1 & H1 & H2).
  cbn [run] in H2. destruct (step s1 (IoWrite p d)) as [s2|] eqn:Hstep;
    [|discriminate].
  destruct s1 as [|h0 b]; [discriminate|]. cbn in Hstep.
  destruct (String.eqb p h0) eqn:Hp; [|discriminate].
  apply String.eqb_eq in Hp. subst. eauto.
Qed.

Lemma opened_app t1 t2 p : opened (t1 ++ t2) p <-> opened t1 p \/ opened t2 p.
Proof.
  unfold opened. split.
  - intros (m & H). apply in_app_or in H as [H|H]; eauto.
  - intros [(m & H)|(m & H)]; exists m; apply in_or_app; auto.
Qed.

End Protocol.

(** ** The protocol is followed *)

Section Tracked.

Context {db : Str.Unicode} {buf : Buffering}.

Lemma tracked_ext st st' cur :
  io_trace st' = io_trace st -> disk st' = disk st ->
  tracked st cur -> tracked st' cur.
Proof. unfold tracked, sealed. now intros -> ->. Qed.

(** A step that appends [evs] to the trace, moves the protocol from [cur]
    to [cur'], and leaves every artifact that is not open either as it was
    or ending with the closing tag. *)
Lemma tracked_step st st' cur cur' evs :
  io_trace st' = io_trace st ++ evs ->
  (forall s, state_of cur s -> exists s', run s evs = Some s' /\ state_of cur' s') ->
  (forall p, cur' <> Some p ->
     (~ opened evs p /\ cur <> Some p /\ disk st' !! p = disk st !! p) \/
     sealed st' p) ->
  tracked st cur -> tracked st' cur'.
Proof.
  intros Ht Hrun Hdisk [(s & Hs & Hcur) Hsealed]. split.
  - destruct (Hrun s Hcur) as (s' & Hs' & Hcur'). exists s'. split; [|exact Hcur'].
    now rewrite Ht, Protocol.run_app, Hs.
  - intros p Hp Hne. rewrite Ht in Hp. apply Protocol.opened_app in Hp.
    destruct (Hdisk p Hne) as [(Hevs & Hc & Hd)|Hs']; [|exact Hs'].
    destruct Hp as [Hp|Hp]; [|contradiction].
    destruct (Hsealed p Hp Hc) as (body & Hbody). exists body. now rewrite Hd.
Qed.

Lemma state_of_open h s : state_of (Some h) s -> exists b, s = Open h b.
Proof. destruct s as [|h' b]; cbn; [easy|]. intros ->. eauto. Qed.

Lemma state_of_none s : state_of None s -> s = NoneOpen.
Proof. now destruct s. Qed.

Lemma not_opened_writes p evs :
  Forall (fun ev => match ev with IoOpen _ _ => False | _ => True end) evs ->
  ~ opened evs p.
Proof.
  intros Hall (m & Hin). apply (proj1 (List.Forall_forall _ _) Hall) in Hin.
  exact Hin.
Qed.

Local Ltac run_steps :=
  cbn; repeat (rewrite String.eqb_refl; cbn);
  eexists; split; reflexivity.

Lemma tracked_written h d st :
  tracked st (Some h) -> tracked (written h d st) (Some h).
Proof.
  apply (tracked_step _ _ _ _ [IoWrite h d]); [apply written_trace| |].
  - intros s Hs. apply state_of_open in Hs as (b & ->). run_steps.
  - intros p Hp. left. split; [|split; [exact Hp|]].
    + apply not_opened_writes. repeat constructor.
    + apply written_disk_other. congruence.
Qed.

Lemma tracked_write_all h ds st :
  tracked st (Some h) -> tracked (write_all h ds st) (Some h).
Proof.
  revert st. induction ds as [|d ds IH]; intros st H; [exact H|].
  unfold write_all in *. cbn [fold_left]. apply IH. now apply tracked_written.
Qed.

Lemma tracked_closed st :
  tracked st (current_file_handle st) -> tracked (closed st) None.
Proof.
  destruct (current_file_handle st) as [h|] eqn:Hh.
  - apply (tracked_step _ _ _ _ [IoWrite h CLOSING_TAG; IoClose h]).
    + now rewrite closed_trace, Hh.
    + intros s Hs. apply state_of_open in Hs as (b & ->). run_steps.
    + intros p _. destruct (decide (p = h)) as [->|Hp].
      * right. exists (logical st h). rewrite closed_disk, Hh.
        apply lookup_insert_eq.
      * left. split; [|split; [congruence|]].
        -- apply not_opened_writes. repeat constructor.
        -- rewrite closed_disk, Hh. now apply lookup_insert_ne.
  - apply tracked_ext.
    + now rewrite closed_trace, Hh, app_nil_r.
    + now rewrite closed_disk, Hh.
Qed.

Lemma opened_single p m q : opened [IoOpen p m] q -> q = p.
Proof. intros (m' & [H|[]]). now injection H. Qed.

Lemma tracked_created p st :
  tracked st None -> tracked (created p st) (Some p).
Proof.
  apply (tracked_step _ _ _ _
    [IoOpen p ModeW; IoWrite p XML_DECLARATION; IoWrite p ROOT_OPEN]);
    [apply created_trace| |].
  - intros s Hs. apply state_of_none in Hs as ->. run_steps.
  - intros q Hq. left. split; [|split; [discriminate|]].
    + intros (m & [H|[H|[H|[]]]]); try discriminate. injection H as -> _.
      congruence.
    + apply created_disk_other. congruence.
Qed.

Lemma tracked_reopened p st :
  tracked st None -> tracked (reopened p st) (Some p).
Proof.
  apply (tracked_step _ _ _ _
    [IoOpen p ModeRPlus; IoTruncate p (String.length (content st p) - 8)]);
    [apply reopened_trace| |].
  - intros s Hs. apply state_of_none in Hs as ->. run_steps.
  - intros q Hq. left. split; [|split; [discriminate|]].
    + intros (m & [H|[H|[]]]); try discriminate. injection H as -> _.
      congruence.
    + rewrite reopened_disk. apply lookup_insert_ne. congruence.
Qed.

Lemma tracked_reopening p st :
  tracked st None -> tracked (reopening p st) (Some p).
Proof.
  apply (tracked_step _ _ _ _ [IoOpen p ModeRPlus]); [apply reopening_trace| |].
  - intros s Hs. apply state_of_none in Hs as ->. run_steps.
  - intros q Hq. left. split; [|split; [discriminate|]].
    + intros Ho. apply opened_single in Ho. congruence.
    + now rewrite reopening_disk.
Qed.

(** Between two events: the trace followed the protocol, the variable
    [current_file_handle] names the open artifact, and
    [current_file_path] is its path. *)
Definition following (st : State) : Prop :=
  tracked st (current_file_handle st).

Definition settled (st : State) : Prop :=
  following st /\ current_file_path st = current_file_handle st.

Definition outcome_ok (st : State) (r : result unit) : Prop :=
  match r with Ok _ => settled st | Raise _ => following st end.

Variable ts : Element -> string.

Lemma route_following c d e st :
  settled st -> outcome_ok (route ts c d e st).1 (route ts c d e st).2.
Proof.
  intros [Hw Hp]. unfold following in Hw.
  assert (tracked (prepared c d e st) (current_file_handle st)) as H0
    by (revert Hw; apply tracked_ext; now frame).
  assert (tracked (closed (prepared c d e st)) None) as Hc
    by (apply tracked_closed; now frame).
  apply route_elim; cbn [outcome_ok]; unfold settled, following; intros.
  - frame. split; [|exact Hp].
    rewrite <- Hp, H in *. now apply tracked_write_all.
  - frame. split; [|reflexivity]. apply tracked_write_all.
    apply (tracked_ext (created (route_path st c) (closed (prepared c d e st))));
      [now frame | now frame |].
    now apply tracked_created.
  - frame. split; [|reflexivity]. apply tracked_write_all.
    apply (tracked_ext (reopened (route_path st c) (closed (prepared c d e st))));
      [now frame | now frame |].
    now apply tracked_reopened.
  - frame. now apply tracked_reopening.
Qed.

Lemma process_event_following e st :
  settled st ->
  outcome_ok (process_event ts e st).1 (process_event ts e st).2.
Proof.
  intros Hst.
  assert (settled (set_processed_cards (S (processed_cards st)) st)) as Hst1.
  { destruct Hst as [Hw Hp]. unfold settled, following. frame.
    split; [|exact Hp]. revert Hw. apply tracked_ext; now frame. }
  apply (process_event_elim ts (fun r => outcome_ok r.1 r.2)).
  - intros _. exact Hst.
  - intros _ _. exact Hst1.
  - intros country _ _ _. now apply route_following.
Qed.

Lemma settled_following st : settled st -> following st.
Proof. now intros [H _]. Qed.

Lemma stream_following events wf st :
  settled st -> following (stream ts events wf st).1.
Proof.
  intros Hst. rewrite stream_state.
  pose proof (for_each_inv_raise settled following (process_event ts) events st)
    as H.
  destruct ((for_each events (process_event ts) st).2);
    [apply settled_following|]; apply H; try exact Hst;
    intros x st0 Hst0; apply (process_event_following x st0 Hst0).
Qed.

Lemma enter_settled st : settled (enter st).
Proof.
  split; [|reflexivity]. split.
  - exists NoneOpen. split; reflexivity.
  - intros p (m & []).
Qed.

(** At the end of the loop the trace followed the protocol, and after the
    final close nothing is open. *)
Lemma loop_following events wf st :
  following (stream ts events wf (enter st)).1.
Proof. apply stream_following, enter_settled. Qed.

Lemma process_xml_tracked events wf st :
  tracked (process_xml ts (Document events wf) st).1 None.
Proof. rewrite process_xml_state. apply tracked_closed, loop_following. Qed.

End Tracked.

(** ** Finalization and the single open artifact *)

Section HandleClaims.

Context {db : Str.Unicode} {buf : Buffering}.

Variable ts : Element -> string.

(** Every step only appends to the trace. *)
Lemma route_trace_grows c d e st :
  io_trace st `prefix_of` io_trace (route ts c d e st).1.
Proof.
  apply (route_elim ts (fun st' _ => io_trace st `prefix_of` io_trace st'));
    intros; frame; rewrite <- ?app_assoc; apply prefix_app_r; reflexivity.
Qed.

Lemma process_event_trace_grows e st :
  io_trace st `prefix_of` io_trace (process_event ts e st).1.
Proof.
  apply (process_event_elim ts
    (fun r => io_trace st `prefix_of` io_trace r.1)).
  - reflexivity.
  - intros _ _. now frame.
  - intros country _ _ _.
    etransitivity; [|apply route_trace_grows]. now frame.
Qed.

Lemma for_each_trace_grows events st :
  io_trace st `prefix_of` io_trace (for_each events (process_event ts) st).1.
Proof.
  apply (for_each_inv (fun st' => io_trace st `prefix_of` io_trace st'));
    [|reflexivity].
  intros e st0 H. etransitivity; [exact H | apply process_event_trace_grows].
Qed.

Lemma for_each_app {A} (body : A -> M unit) l1 l2 st :
  (for_each (l1 ++ l2) body st).1
  = match (for_each l1 body st).2 with
    | Ok _ => (for_each l2 body (for_each l1 body st).1).1
    | Raise _ => (for_each l1 body st).1
    end.
Proof.
  revert st. induction l1 as [|x l1 IH]; intros st; [reflexivity|].
  cbn [app for_each]. unfold bind.
  destruct (body x st) as [st1 [[]|e]]; [apply IH | reflexivity].
Qed.

(** The trace after the first [k] events is the beginning of the trace of
    the whole run. *)
Lemma trace_after_prefix events wf st k :
  io_trace (for_each (firstn k events) (process_event ts) (enter st)).1
  `prefix_of` io_trace (process_xml ts (Document events wf) st).1.
Proof.
  rewrite process_xml_state, stream_state.
  transitivity (io_trace (for_each events (process_event ts) (enter st)).1).
  - rewrite <- (firstn_skipn k events) at 2. rewrite for_each_app.
    destruct (for_each (firstn k events) (process_event ts) (enter st)).2;
      [apply for_each_trace_grows | reflexivity].
  - rewrite closed_trace. now apply prefix_app_r.
Qed.

(** C1. Whatever ends the loop of [process_xml], its exhaustion, a parse
    error of the iterator or the exception of a reopen, the call ends as
    the loop did, and an artifact open at the end of the loop (it is the
    only open one) gets the closing tag written and is closed: these are
    the last two operations of the call, and the file then holds all the
    bytes written to it followed by the tag.  When the call returns or
    raises, no artifact is open and every artifact opened during the call
    ends with the closing tag. *)
Theorem C1_open_artifact_finalized events wf st :
  let loop := stream ts events wf (enter st) in
  let final := process_xml ts (Document events wf) st in
  final.2 = match loop.2 with
            | Ok _ => Ok (processed_cards loop.1)
            | Raise e => Raise e
            end /\
  (forall h, current_file_handle loop.1 = Some h ->
     open_handles (io_trace loop.1) = [h] /\
     io_trace final.1 = io_trace loop.1 ++ [IoWrite h CLOSING_TAG; IoClose h] /\
     disk final.1 !! h = Some (logical loop.1 h +:+ CLOSING_TAG)) /\
  (current_file_handle loop.1 = None ->
     open_handles (io_trace loop.1) = [] /\ final.1 = loop.1) /\
  open_handles (io_trace final.1) = [] /\
  (forall p m, In (IoOpen p m) (io_trace final.1) ->
     exists body, disk final.1 !! p = Some (body +:+ CLOSING_TAG)).
Proof.
  intros loop final.
  pose proof (loop_following ts events wf st) as Hloop. fold loop in Hloop.
  pose proof (process_xml_tracked ts events wf st) as Hfinal. fold final in Hfinal.
  assert (final.1 = closed loop.1) as Heq by apply process_xml_state.
  split; [apply process_xml_result|]. split; [|split; [|split]].
  - intros h Hh. destruct Hloop as [(s & Hs & Hcur) _]. rewrite Hh in Hcur.
    apply state_of_open in Hcur as (b & ->). split; [|split].
    + unfold open_handles. change [] with (handles_of NoneOpen).
      now rewrite (Protocol.run_open_handles _ _ _ Hs).
    + now rewrite Heq, closed_trace, Hh.
    + rewrite Heq, closed_disk, Hh. apply lookup_insert_eq.
  - intros Hh. destruct Hloop as [(s & Hs & Hcur) _]. rewrite Hh in Hcur.
    apply state_of_none in Hcur as ->. split.
    + unfold open_handles. change [] with (handles_of NoneOpen).
      now rewrite (Protocol.run_open_handles _ _ _ Hs).
    + rewrite Heq. unfold closed. now rewrite Hh.
  - destruct Hfinal as [(s & Hs & Hcur) _]. apply state_of_none in Hcur as ->.
    unfold open_handles. change [] with (handles_of NoneOpen).
    now rewrite (Protocol.run_open_handles _ _ _ Hs).
  - intros p m Hin. destruct Hfinal as [_ Hsealed].
    apply Hsealed; [now exists m | discriminate].
Qed.

(** C5. The file operations of a run follow the protocol of a single
    handle.  After any beginning of the trace at most one artifact is open;
    an artifact is opened only when none is open, and unless it is the
    first operation of the run, the two operations before it are the write
    of the closing tag to the artifact that was open and its close; every
    write goes to the artifact that is open.  The trace after any number of
    events is a beginning of the trace of the run, so this holds at every
    moment of the run. *)
Theorem C5_single_open_artifact events wf st :
  let t := io_trace (process_xml ts (Document events wf) st).1 in
  (forall t1 t2, t = t1 ++ t2 -> length (open_handles t1) <= 1) /\
  (forall t1 p m t2, t = t1 ++ IoOpen p m :: t2 ->
     open_handles t1 = [] /\
     (t1 = [] \/ exists t0 q, t1 = t0 ++ [IoWrite q CLOSING_TAG; IoClose q])) /\
  (forall t1 p d t2, t = t1 ++ IoWrite p d :: t2 -> open_handles t1 = [p]) /\
  (forall k,
     io_trace (for_each (firstn k events) (process_event ts) (enter st)).1
     `prefix_of` t).
Proof.
  intros t.
  destruct (process_xml_tracked ts events wf st) as [(s & Hs & _) _].
  fold t in Hs. split; [|split; [|split]].
  - intros t1 t2. now apply (Protocol.run_single t s).
  - intros t1 p m t2 Ht. rewrite Ht in Hs.
    apply Protocol.run_before_open in Hs. split.
    + unfold open_handles. change [] with (handles_of NoneOpen).
      now rewrite (Protocol.run_open_handles _ _ _ Hs).
    + now apply Protocol.run_closed_end.
  - intros t1 p d t2 Ht. rewrite Ht in Hs.
    apply Protocol.run_before_write in Hs as (b & Hs).
    unfold open_handles. change [] with (handles_of NoneOpen).
    now rewrite (Protocol.run_open_handles _ _ _ Hs).
  - intros k. apply trace_after_prefix.
Qed.

End HandleClaims.

(** Two countries, and a document that is not well formed after them. *)
Definition card_of (country : string) : Element :=
  mkElement "businesscard" [] None
    [mkElement "entity" [("countrycode", country)] None [] None] None.

Definition broken_document : Input :=
  Document [card_of "BE"; card_of "FR"; card_of "BE"] false.

Lemma C1_witness :
  (process_xml ET.tostring broken_document (fresh_state 1000000)).2
  = Raise ParseError /\
  open_handles
    (io_trace (process_xml ET.tostring broken_document (fresh_state 1000000)).1)
  = [] /\
  Str.endswith
    (content (process_xml ET.tostring broken_document (fresh_state 1000000)).1
       (artifact_path "FR" 1)) CLOSING_TAG = true /\
  exists body,
    disk (process_xml ET.tostring broken_document (fresh_state 1000000)).1
      !! artifact_path "BE" 1 = Some (body +:+ CLOSING_TAG).
Proof.
  pose proof (C1_open_artifact_finalized ET.tostring
    [card_of "BE"; card_of "FR"; card_of "BE"] false (fresh_state 1000000)) as H.
  cbv zeta in H. destruct H as (H1 & _ & _ & H2 & H3).
  split; [vm_compute; reflexivity|].
  split; [exact H2|]. split; [vm_compute; reflexivity|].
  apply (H3 (artifact_path "BE" 1) ModeW). vm_compute. left. reflexivity.
Defined.

Lemma C5_witness :
  length (open_handles
    (firstn 9 (io_trace (process_xml ET.tostring broken_document
                           (fresh_state 1000000)).1))) <= 1.
Proof.
  pose proof (C5_single_open_artifact ET.tostring
    [card_of "BE"; card_of "FR"; card_of "BE"] false (fresh_state 1000000)) as H.
  cbv zeta in H. destruct H as (H & _).
  apply (H _ (skipn 9 (io_trace (process_xml ET.tostring broken_document
                                    (fresh_state 1000000)).1))).
  symmetry. apply firstn_skipn.
Defined.

(** ** Further properties of the extractor and of the router *)

Section Extractor.

Context {db : Str.Unicode}.

Lemma slice_to_len (n : nat) (s : string) :
  n <= Str.len s -> Str.len (Str.slice_to n s) = n.
Proof.
  intros Hn. unfold Str.len, Str.slice_to in *.
  rewrite CharFacts.chars_join
    by apply CharFacts.well_split_firstn, CharFacts.chars_well_split.
  now apply List.firstn_length_le.
Qed.

Lemma extract_date_length element d :
  extract_date element = Some d -> Str.len d = 10.
Proof.
  unfold extract_date.
  destruct (or_else _ _) as [regdate|]; [|discriminate].
  destruct (text regdate) as [t|]; [|discriminate].
  destruct (Str.nonempty t); [|discriminate].
  destruct (10 <=? Str.len (Str.strip t)) eqn:Hlen; [|discriminate].
  intros [= <-]. apply slice_to_len. now apply Nat.leb_le.
Qed.

Lemma extract_date_truthy element d :
  extract_date element = Some d -> truthy (Some d) = true.
Proof.
  intros H. apply extract_date_length in H. cbn [truthy].
  destruct d; [discriminate H | reflexivity].
Qed.

(** X5. A date returned by [extract_date] has exactly ten characters,
    whatever the text of the registration date is beyond its tenth
    character: a text of fewer than ten characters, blanks at both ends
    apart, gives no date. *)
Theorem X5_extracted_date_has_ten_characters element :
  match extract_date element with
  | Some d => Str.len d = 10 /\ d <> ""
  | None => True
  end.
Proof.
  destruct (extract_date element) as [d|] eqn:Hd; [|exact I].
  split; [now apply (extract_date_length element)|].
  apply extract_date_truthy in Hd. now apply StrFacts.nonempty_true.
Qed.

End Extractor.

(** X1. Two artifacts of one country have the same path only when they
    have the same sequence number, also beyond the six digits of the
    padding and whatever [pathlib] makes of the country code. *)
Theorem X1_artifact_paths_of_a_country_distinct c n m :
  artifact_path c n = artifact_path c m <-> n = m.
Proof.
  split; [|now intros ->]. unfold artifact_path. intros H.
  apply (inj (String.app (country_dir c))) in H.
  apply (inj (String.app "business-cards.")) in H.
  apply StrFacts.app_inv_tail in H. now apply PathFacts.format_06d_inj.
Qed.

(** The number of artifacts created in a trace. *)
Definition creations (t : list io_event) : nat :=
  length (List.filter (fun ev => match ev with
                                 | IoOpen _ ModeW => true
                                 | _ => false
                                 end) t).

(** The number of records among the events. *)
Definition count_records (events : list Element) : nat :=
  length (List.filter (fun e => Str.endswith (tag e) "businesscard") events).

Lemma creations_app t1 t2 : creations (t1 ++ t2) = creations t1 + creations t2.
Proof. unfold creations. now rewrite List.filter_app, List.length_app. Qed.

Lemma creations_writes p ds : creations (map (IoWrite p) ds) = 0.
Proof. induction ds as [|d ds IH]; [reflexivity | exact IH]. Qed.

Section Router.

Context {db : Str.Unicode} {buf : Buffering}.

Variable ts : Element -> string.

(** The bucket of a record: its date, or the fallback. *)
Definition date_bucket (elem : Element) : string :=
  match extract_date elem with
  | Some d => d
  | None => fallback_date elem
  end.

Lemma route_date_bucket elem : route_date (extract_date elem) elem = date_bucket elem.
Proof.
  unfold route_date, date_bucket.
  destruct (extract_date elem) as [d|] eqn:Hd; [|reflexivity].
  now rewrite (extract_date_truthy _ _ Hd).
Qed.

(** X2. A record with a country adds one to the statistic of its country
    and one to the statistic of its date bucket, and changes no other
    statistic. *)
Theorem X2_routed_record_statistics elem st country :
  Str.endswith (tag elem) "businesscard" = true ->
  extract_country elem = Some country -> country <> "" ->
  let st' := (process_event ts elem st).1 in
  let ckey := "country_" +:+ country in
  let dkey := "date_" +:+ date_bucket elem in
  stats st' !! ckey = Some (S (default 0 (stats st !! ckey))) /\
  stats st' !! dkey = Some (S (default 0 (stats st !! dkey))) /\
  (forall key, key <> ckey -> key <> dkey -> stats st' !! key = stats st !! key).
Proof.
  intros Htag Hc Hne st' ckey dkey. subst st'.
  rewrite (process_event_routed _ _ _ _ Htag Hc Hne), route_stats.
  rewrite route_date_bucket, set_processed_cards_stats. fold ckey dkey.
  assert (dkey <> ckey) as Hkeys by discriminate.
  split; [|split].
  - rewrite lookup_insert_ne by exact Hkeys. apply lookup_insert_eq.
  - apply lookup_insert_eq.
  - intros key H1 H2. now rewrite !lookup_insert_ne by congruence.
Qed.

Lemma process_event_count e st :
  processed_cards (process_event ts e st).1
  = processed_cards st + count_records [e].
Proof.
  unfold count_records. cbn [List.filter].
  apply (process_event_elim ts
    (fun r => processed_cards r.1 = processed_cards st + _)).
  - intros ->. cbn. lia.
  - intros -> _. cbn [fst]. rewrite set_processed_cards_processed_cards.
    cbn. lia.
  - intros country -> _ _.
    rewrite route_processed_cards, set_processed_cards_processed_cards. cbn. lia.
Qed.

Lemma for_each_count events st :
  processed_cards (for_each events (process_event ts) st).1
  <= processed_cards st + count_records events /\
  ((for_each events (process_event ts) st).2 = Ok tt ->
   processed_cards (for_each events (process_event ts) st).1
   = processed_cards st + count_records events).
Proof.
  revert st. induction events as [|e events IH]; intros st.
  - cbn. split; [lia|]. intros _. unfold count_records. cbn. lia.
  - pose proof (process_event_count e st) as He.
    assert (count_records (e :: events)
            = count_records [e] + count_records events) as Hsplit.
    { unfold count_records. cbn [List.filter].
      destruct (Str.endswith (tag e) "businesscard"); reflexivity. }
    cbn [for_each]. unfold bind.
    destruct (process_event ts e st) as [st1 [[]|x]]; cbn [fst snd] in *.
    + destruct (IH st1) as [IH1 IH2]. split; [lia|].
      intros Hok. rewrite (IH2 Hok). lia.
    + split; [lia | discriminate].
Qed.

Lemma route_raises c d e st :
  match (route ts c d e st).2 with Ok _ => True | Raise x => x = ValueError end.
Proof.
  apply (route_elim ts
    (fun _ r => match r with Ok _ => True | Raise x => x = ValueError end));
    intros; exact I || reflexivity.
Qed.

Lemma for_each_raises events st :
  match (for_each events (process_event ts) st).2 with
  | Ok _ => True
  | Raise x => x = ValueError
  end.
Proof.
  revert st. induction events as [|e events IH]; intros st; [exact I|].
  cbn [for_each]. unfold bind.
  pose proof (process_event_elim ts
    (fun r => match r.2 with Ok _ => True | Raise x => x = ValueError end) e st)
    as He.
  destruct (process_event ts e st) as [st1 [[]|x]]; cbn [fst snd] in *.
  - apply IH.
  - apply He; try (intros; exact I). intros country _ _ _. apply route_raises.
Qed.


Lemma route_file_count c d e st :
  file_count (route ts c d e st).1 + creations (io_trace st)
  = file_count st + creations (io_trace (route ts c d e st).1).
Proof.
  apply (route_elim ts
    (fun st' _ => file_count st' + creations (io_trace st)
                  = file_count st + creations (io_trace st'))); intros; frame;
    rewrite ?creations_app, ?creations_writes;
    destruct (current_file_handle st); cbn; lia.
Qed.

Lemma process_event_file_count e st :
  file_count (process_event ts e st).1 + creations (io_trace st)
  = file_count st + creations (io_trace (process_event ts e st).1).
Proof.
  apply (process_event_elim ts
    (fun r => file_count r.1 + creations (io_trace st)
              = file_count st + creations (io_trace r.1))).
  - reflexivity.
  - intros _ _. cbn [fst]. now frame.
  - intros country _ _ _.
    pose proof (route_file_count country (extract_date e) e
                  (set_processed_cards (S (processed_cards st)) st)) as H.
    revert H. now frame.
Qed.

(** X4. Over a run, [file_count] grows by the number of artifacts the run
    created, those opened for writing; reopening an artifact does not
    count. *)
Theorem X4_file_count_counts_created_artifacts events wf st :
  file_count (process_xml ts (Document events wf) st).1
  = file_count st
    + creations (io_trace (process_xml ts (Document events wf) st).1).
Proof.
  rewrite process_xml_state, stream_state.
  assert (file_count (for_each events (process_event ts) (enter st)).1
          = file_count st
            + creations (io_trace (for_each events (process_event ts)
                                     (enter st)).1)) as Hloop.
  { apply (for_each_inv
      (fun st' => file_count st' = file_count st + creations (io_trace st'))).
    - intros e st0 H. pose proof (process_event_file_count e st0). lia.
    - cbn. lia. }
  frame. rewrite creations_app, Hloop.
  destruct (current_file_handle _); cbn; lia.
Qed.



End Router.

Lemma X2_witness :
  stats (process_event ET.tostring (card_named "Acme5 Corp!")
           (fresh_state 1000000)).1 !! "country_BE" = Some 1 /\
  stats (process_event ET.tostring (card_named "Acme5 Corp!")
           (fresh_state 1000000)).1 !! "date_2000-ACME5" = Some 1.
Proof.
  pose proof (X2_routed_record_statistics ET.tostring (card_named "Acme5 Corp!")
    (fresh_state 1000000) "BE" eq_refl eq_refl ltac:(discriminate)) as H.
  cbv zeta in H. destruct H as (H1 & H2 & _). split; [exact H1 | exact H2].
Defined.


